(** * kor: detection of unused config maps (pkg/kor/confimgmaps.go)

    A shallow embedding of the config-map engine of kor: the extraction of
    the config-map names referenced by the pods of a namespace, the listing
    of the candidate config maps, the difference of the two, and the loop
    over the selected namespaces that builds the response.

    Go slices are lists, [append] is [++] at the tail, a pointer field that
    may be nil is an [option], a [map[string]T] is a [gmap string T], an
    [error] is its message, and a call that returns [(value, error)] returns a
    sum. The cluster behind [kubernetes.Interface] is a value that the two
    list calls read and that only the deletion helper changes. *)

From stdpp Require Import base option list sorting strings gmap fin_maps.

Local Open Scope string_scope.
Local Open Scope list_scope.

(** ** Go values *)

Definition error := string.

(** A call [v, err := f(...)]. *)
Definition Result (A : Type) : Type := (error + A)%type.

(** [for _, x := range xs { s = body s x }] *)
Definition forRange {A S : Type} (xs : list A) (body : S → A → S) (s : S) : S :=
  fold_left body xs s.

(** The string of a Go string map at a key: the zero value when absent. *)
Definition mapIndex (m : gmap string string) (k : string) : string :=
  default "" (m !! k).

(** ** The parts of the Kubernetes API objects that the engine reads
    (k8s.io/api/core/v1) *)

Record ConfigMapVolumeSource := { ConfigMapVolumeSource_Name : string }.
Record ConfigMapProjection := { ConfigMapProjection_Name : string }.
Record VolumeProjection :=
  { VolumeProjection_ConfigMap : option ConfigMapProjection }.
Record ProjectedVolumeSource :=
  { ProjectedVolumeSource_Sources : list VolumeProjection }.
Record Volume := {
  Volume_Name : string;
  Volume_ConfigMap : option ConfigMapVolumeSource;
  Volume_Projected : option ProjectedVolumeSource }.

Record ConfigMapKeySelector := {
  ConfigMapKeySelector_Name : string;
  ConfigMapKeySelector_Key : string }.
Record EnvVarSource :=
  { EnvVarSource_ConfigMapKeyRef : option ConfigMapKeySelector }.
Record EnvVar := {
  EnvVar_Name : string;
  EnvVar_Value : string;
  EnvVar_ValueFrom : option EnvVarSource }.

Record ConfigMapEnvSource := { ConfigMapEnvSource_Name : string }.
Record EnvFromSource :=
  { EnvFromSource_ConfigMapRef : option ConfigMapEnvSource }.

Record VolumeMount := {
  VolumeMount_Name : string;
  VolumeMount_MountPath : string }.

Record Container := {
  Container_Name : string;
  Container_Env : list EnvVar;
  Container_EnvFrom : list EnvFromSource;
  Container_VolumeMounts : list VolumeMount }.

Record PodSpec := {
  PodSpec_Volumes : list Volume;
  PodSpec_Containers : list Container;
  PodSpec_InitContainers : list Container }.

Record Pod := { Pod_Name : string; Pod_Spec : PodSpec }.

(** [metav1.Time], as seconds. *)
Definition Time := Z.

Record ConfigMap := {
  ConfigMap_Name : string;
  ConfigMap_Labels : gmap string string;
  ConfigMap_CreationTimestamp : Time }.

(** What [clientset.CoreV1().Pods(ns).List] and
    [clientset.CoreV1().ConfigMaps(ns).List] answer. *)
Record Clientset := {
  Pods_List : string → Result (list Pod);
  ConfigMaps_List : string → Result (list ConfigMap) }.

(** ** Declarations of the package outside confimgmaps.go *)

Record ExceptionResource := {
  ResourceName : string;
  Namespace : string }.

Record Opts := {
  DeleteFlag : bool;
  NoInteractive : bool }.

(** Modelled from the spec: [RemoveDuplicatesAndSort], a helper of the package
    that is not in confimgmaps.go. The sequence without its duplicates, in
    lexicographic ascending order ([String.le] compares byte by byte, as Go
    compares strings). *)
Definition RemoveDuplicatesAndSort (slice : list string) : list string :=
  merge_sort String.le (remove_dups slice).

(** Modelled from the spec: [CalculateResourceDifference], a helper of the
    package that is not in confimgmaps.go. The candidates whose name is absent
    from the referenced names; the unused set is deduplicated and sorted
    ascending by name. *)
Definition CalculateResourceDifference
    (usedResourceNames allResourceNames : list string) : list string :=
  RemoveDuplicatesAndSort (filter (λ name, name ∉ usedResourceNames) allResourceNames).

(** ** confimgmaps.go *)

Definition exceptionconfigmaps : list ExceptionResource :=
  [ {| ResourceName := "aws-auth"; Namespace := "kube-system" |};
    {| ResourceName := "kube-root-ca.crt"; Namespace := "*" |} ].

(** The six slices that [retrieveUsedCM] fills and returns. *)
Record UsedCM := {
  volumesCM : list string;
  volumesProjectedCM : list string;
  envCM : list string;
  envFromCM : list string;
  envFromContainerCM : list string;
  envFromInitContainerCM : list string }.

Definition noUsedCM : UsedCM := Build_UsedCM [] [] [] [] [] [].

Definition add_volumesCM (u : UsedCM) (n : string) : UsedCM :=
  Build_UsedCM (volumesCM u ++ [n]) (volumesProjectedCM u) (envCM u)
    (envFromCM u) (envFromContainerCM u) (envFromInitContainerCM u).
Definition add_volumesProjectedCM (u : UsedCM) (n : string) : UsedCM :=
  Build_UsedCM (volumesCM u) (volumesProjectedCM u ++ [n]) (envCM u)
    (envFromCM u) (envFromContainerCM u) (envFromInitContainerCM u).
Definition add_envCM (u : UsedCM) (n : string) : UsedCM :=
  Build_UsedCM (volumesCM u) (volumesProjectedCM u) (envCM u ++ [n])
    (envFromCM u) (envFromContainerCM u) (envFromInitContainerCM u).
Definition add_envFromCM (u : UsedCM) (n : string) : UsedCM :=
  Build_UsedCM (volumesCM u) (volumesProjectedCM u) (envCM u)
    (envFromCM u ++ [n]) (envFromContainerCM u) (envFromInitContainerCM u).
Definition add_envFromContainerCM (u : UsedCM) (n : string) : UsedCM :=
  Build_UsedCM (volumesCM u) (volumesProjectedCM u) (envCM u)
    (envFromCM u) (envFromContainerCM u ++ [n]) (envFromInitContainerCM u).
Definition add_envFromInitContainerCM (u : UsedCM) (n : string) : UsedCM :=
  Build_UsedCM (volumesCM u) (volumesProjectedCM u) (envCM u)
    (envFromCM u) (envFromContainerCM u) (envFromInitContainerCM u ++ [n]).

(** [env.ValueFrom != nil && env.ValueFrom.ConfigMapKeyRef != nil] and the
    name behind it. *)
Definition envConfigMapKeyRef (env : EnvVar) : option string :=
  match EnvVar_ValueFrom env with
  | Some vf =>
      match EnvVarSource_ConfigMapKeyRef vf with
      | Some ref => Some (ConfigMapKeySelector_Name ref)
      | None => None
      end
  | None => None
  end.

(** Lines 34-45: the volumes of a pod. *)
Definition scanVolume (u : UsedCM) (volume : Volume) : UsedCM :=
  let u :=
    match Volume_ConfigMap volume with
    | Some cm => add_volumesCM u (ConfigMapVolumeSource_Name cm)
    | None => u
    end in
  match Volume_Projected volume with
  | Some projected =>
      forRange (ProjectedVolumeSource_Sources projected)
        (λ u source,
           match VolumeProjection_ConfigMap source with
           | Some cm => add_volumesProjectedCM u (ConfigMapProjection_Name cm)
           | None => u
           end) u
  | None => u
  end.

(** Lines 46-62: a container of a pod; its [EnvFrom] is walked twice. *)
Definition scanContainer (u : UsedCM) (container : Container) : UsedCM :=
  let u :=
    forRange (Container_Env container)
      (λ u env,
         match envConfigMapKeyRef env with
         | Some n => add_envCM u n
         | None => u
         end) u in
  let u :=
    forRange (Container_EnvFrom container)
      (λ u envFrom,
         match EnvFromSource_ConfigMapRef envFrom with
         | Some ref => add_envFromCM u (ConfigMapEnvSource_Name ref)
         | None => u
         end) u in
  forRange (Container_EnvFrom container)
    (λ u envFrom,
       match EnvFromSource_ConfigMapRef envFrom with
       | Some ref => add_envFromContainerCM u (ConfigMapEnvSource_Name ref)
       | None => u
       end) u.

(** Lines 63-74: an init container of a pod; its volume mounts and its
    [Env], and nothing else. *)
Definition scanInitContainer (u : UsedCM) (initContainer : Container) : UsedCM :=
  let u :=
    forRange (Container_VolumeMounts initContainer)
      (λ u volume,
         if bool_decide (VolumeMount_Name volume ≠ "")
            && bool_decide (VolumeMount_MountPath volume ≠ "")
         then add_volumesCM u (VolumeMount_Name volume)
         else u) u in
  forRange (Container_Env initContainer)
    (λ u env,
       match envConfigMapKeyRef env with
       | Some n => add_envFromInitContainerCM u n
       | None => u
       end) u.

(** Lines 33-75: one pod. *)
Definition scanPod (u : UsedCM) (pod : Pod) : UsedCM :=
  let u := forRange (PodSpec_Volumes (Pod_Spec pod)) scanVolume u in
  let u := forRange (PodSpec_Containers (Pod_Spec pod)) scanContainer u in
  forRange (PodSpec_InitContainers (Pod_Spec pod)) scanInitContainer u.

(** Lines 77-81. *)
Definition addException (namespace : string) (u : UsedCM)
    (resource : ExceptionResource) : UsedCM :=
  if bool_decide (Namespace resource = namespace)
     || bool_decide (Namespace resource = "*")
  then add_volumesCM u (ResourceName resource)
  else u.

Definition retrieveUsedCM (clientset : Clientset) (namespace : string)
    : Result UsedCM :=
  match Pods_List clientset namespace with
  | inl err => inl err
  | inr pods =>
      let u := forRange pods scanPod noUsedCM in
      let u := forRange exceptionconfigmaps (addException namespace) u in
      inr u
  end.

(** The line feed. *)
Definition LF : string :=
  String (Ascii.Ascii false true false true false false false false) "".

(** [%s] of a [[]string], as [fmt] prints it. *)
Definition fmtStrings (l : list string) : string :=
  "[" +:+ String.concat " " l +:+ "]".

(** ** encoding/json on the response

    [json.MarshalIndent] on a [map[string]map[string][]string]: the keys of
    an object in ascending order, every member and element on a line of its
    own behind the prefix and one indent per level of nesting, the empty
    object and the empty array closed at once. The writer of a string literal
    is the library's and stays a parameter. (The library writes a nil slice
    as null; a list does not tell it from the empty one, written [[]].) *)
Section json.
Variable encodeString : string → string.
Variables prefix indent : string.

Definition newline (depth : nat) : string :=
  LF +:+ prefix +:+ String.concat "" (replicate depth indent).

Definition encodeArray (depth : nat) (l : list string) : string :=
  match l with
  | [] => "[]"
  | _ =>
      "[" +:+ String.concat ","
               ((λ s, newline (S depth) +:+ encodeString s) <$> l)
          +:+ newline depth +:+ "]"
  end.

Definition sortedMembers {V : Type} (m : gmap string V) : list (string * V) :=
  merge_sort (λ a b, String.le a.1 b.1) (map_to_list m).

Definition encodeObject {V : Type} (encodeValue : nat → V → string)
    (depth : nat) (m : gmap string V) : string :=
  match sortedMembers m with
  | [] => "{}"
  | members =>
      "{" +:+ String.concat ","
               ((λ kv, newline (S depth) +:+ encodeString kv.1 +:+ ": "
                         +:+ encodeValue (S depth) kv.2) <$> members)
          +:+ newline depth +:+ "}"
  end.

Definition MarshalIndent (v : gmap string (gmap string (list string)))
    : Result string :=
  inr (encodeObject (encodeObject encodeArray) 0 v).
End json.

(** The document that the spec describes, written out line by line:
    [{ "<namespace>": { "ConfigMap": ["<name>", ...] }, ... }] with two spaces
    per level. *)
Section document.
Variable encodeString : string → string.

Definition documentArray (names : list string) : string :=
  match names with
  | [] => "[]"
  | _ =>
      "[" +:+ String.concat ","
                ((λ s, LF +:+ "      " +:+ encodeString s) <$> names)
          +:+ LF +:+ "    ]"
  end.

Definition documentEntry (entry : string * list string) : string :=
  LF +:+ "  " +:+ encodeString entry.1 +:+ ": " +:+ "{"
     +:+ (LF +:+ "    " +:+ encodeString "ConfigMap" +:+ ": "
             +:+ documentArray entry.2)
     +:+ LF +:+ "  }".

Definition document (entries : list (string * list string)) : string :=
  match entries with
  | [] => "{}"
  | _ => "{" +:+ String.concat "," (documentEntry <$> entries) +:+ LF +:+ "}"
  end.

(** The entries of a response, by ascending namespace. *)
Definition entriesOf (response : gmap string (gmap string (list string)))
    : list (string * list string) :=
  (λ kv, (kv.1, default [] (kv.2 !! "ConfigMap"))) <$> sortedMembers response.
End document.

(** ** The engine, over the rest of the package

    The helpers below are declared elsewhere in the package or are external
    collaborators; the engine only calls them. *)
Section kor.
Context {FilterOptions ExcludeLabelsT IncludeExcludeLists : Type}.
Variable ExcludeLabels : FilterOptions → ExcludeLabelsT.
Variable HasExcludedLabel :
  gmap string string → ExcludeLabelsT → bool * option error.
Variable HasIncludedAge : Time → FilterOptions → bool * option error.
Variable SetNamespaceList : IncludeExcludeLists → Clientset → list string.
(** The deletion executor: what could not be deleted, an error, and the
    cluster after the deletions. *)
Variable DeleteResource :
  list string → Clientset → string → string → bool →
  (list string * option error) * Clientset.
Variable FormatOutput : string → list string → string → string.
Variable unusedResourceFormatter :
  string → string → Opts → string → string * option error.
Variable encodeString : string → string.

(** Lines 92-109: one config map of the listing. *)
Definition keepConfigMap (filterOpts : FilterOptions) (names : list string)
    (configmap : ConfigMap) : list string :=
  if (HasExcludedLabel (ConfigMap_Labels configmap) (ExcludeLabels filterOpts)).1
  then names
  else if negb (HasIncludedAge (ConfigMap_CreationTimestamp configmap) filterOpts).1
  then names
  else if bool_decide (mapIndex (ConfigMap_Labels configmap) "kor/used" = "true")
  then names
  else names ++ [ConfigMap_Name configmap].

Definition retrieveConfigMapNames (clientset : Clientset) (namespace : string)
    (filterOpts : FilterOptions) : Result (list string) :=
  match ConfigMaps_List clientset namespace with
  | inl err => inl err
  | inr configmaps => inr (forRange configmaps (keepConfigMap filterOpts) [])
  end.

Definition processNamespaceCM (clientset : Clientset) (namespace : string)
    (filterOpts : FilterOptions) : Result (list string) :=
  match retrieveUsedCM clientset namespace with
  | inl err => inl err
  | inr u =>
      let u :=
        {| volumesCM := RemoveDuplicatesAndSort (volumesCM u);
           volumesProjectedCM := RemoveDuplicatesAndSort (volumesProjectedCM u);
           envCM := RemoveDuplicatesAndSort (envCM u);
           envFromCM := RemoveDuplicatesAndSort (envFromCM u);
           envFromContainerCM := RemoveDuplicatesAndSort (envFromContainerCM u);
           envFromInitContainerCM :=
             RemoveDuplicatesAndSort (envFromInitContainerCM u) |} in
      match retrieveConfigMapNames clientset namespace filterOpts with
      | inl err => inl err
      | inr configMapNames =>
          let slicesToAppend :=
            [volumesCM u; volumesProjectedCM u; envCM u; envFromCM u;
             envFromContainerCM u; envFromInitContainerCM u] in
          let usedConfigMaps :=
            forRange slicesToAppend (λ used slice, used ++ slice) [] in
          inr (CalculateResourceDifference usedConfigMaps configMapNames)
      end
  end.

(** What the loop of [GetUnusedConfigmaps] carries from one namespace to
    the next. *)
Record Run := {
  outputBuffer : string;
  response : gmap string (gmap string (list string));
  stderr : list string;
  cluster : Clientset }.

(** Lines 147-166: the body of the loop. *)
Definition namespaceStep (filterOpts : FilterOptions) (opts : Opts)
    (r : Run) (namespace : string) : Run :=
  match processNamespaceCM (cluster r) namespace filterOpts with
  | inl err =>
      {| outputBuffer := outputBuffer r;
         response := response r;
         stderr := stderr r ++
           ["Failed to process namespace " +:+ namespace +:+ ": " +:+ err +:+ LF];
         cluster := cluster r |}
  | inr diff =>
      let '(diff, errs, clientset) :=
        if DeleteFlag opts then
          let '(diff, err, clientset) :=
            DeleteResource diff (cluster r) namespace "ConfigMap"
              (NoInteractive opts) in
          match err with
          | Some err =>
              (diff,
               ["Failed to delete ConfigMap " +:+ fmtStrings diff
                  +:+ " in namespace " +:+ namespace +:+ ": " +:+ err +:+ LF],
               clientset)
          | None => (diff, [], clientset)
          end
        else (diff, [], cluster r) in
      let output := FormatOutput namespace diff "Configmaps" in
      let resourceMap : gmap string (list string) := <["ConfigMap" := diff]> ∅ in
      {| outputBuffer := outputBuffer r +:+ output +:+ LF;
         response := <[namespace := resourceMap]> (response r);
         stderr := stderr r ++ errs;
         cluster := clientset |}
  end.

Definition startRun (clientset : Clientset) : Run :=
  {| outputBuffer := ""; response := ∅; stderr := []; cluster := clientset |}.

(** The state after the loop over the namespaces. *)
Definition runNamespaces (filterOpts : FilterOptions) (opts : Opts)
    (namespaces : list string) (r : Run) : Run :=
  forRange namespaces (namespaceStep filterOpts opts) r.

(** What a call leaves behind: the two returned values, what went to the
    standard error and output streams, and the cluster. *)
Record Outcome := {
  returned : string * option error;
  printedErr : list string;
  printedOut : list string;
  clusterAfter : Clientset }.

Definition GetUnusedConfigmaps (includeExcludeLists : IncludeExcludeLists)
    (filterOpts : FilterOptions) (clientset : Clientset)
    (outputFormat : string) (opts : Opts) : Outcome :=
  let namespaces := SetNamespaceList includeExcludeLists clientset in
  let r := runNamespaces filterOpts opts namespaces (startRun clientset) in
  match MarshalIndent encodeString "" "  " (response r) with
  | inl err =>
      {| returned := ("", Some err); printedErr := stderr r;
         printedOut := []; clusterAfter := cluster r |}
  | inr jsonResponse =>
      let '(unusedCMs, err) :=
        unusedResourceFormatter outputFormat (outputBuffer r) opts jsonResponse in
      {| returned := (unusedCMs, None);
         printedErr := stderr r;
         printedOut :=
           match err with
           | Some err => ["err: " +:+ err +:+ LF]
           | None => []
           end;
         clusterAfter := cluster r |}
  end.

(** The state in which [GetUnusedConfigmaps] leaves its loop. *)
Definition finalRun (includeExcludeLists : IncludeExcludeLists)
    (filterOpts : FilterOptions) (clientset : Clientset) (opts : Opts) : Run :=
  runNamespaces filterOpts opts
    (SetNamespaceList includeExcludeLists clientset) (startRun clientset).

(** What the deletion executor returns as not deleted. *)
Definition residual (opts : Opts) (clientset : Clientset) (namespace : string)
    (diff : list string) : list string :=
  (DeleteResource diff clientset namespace "ConfigMap" (NoInteractive opts)).1.1.

(** The three tests of lines 95-106 on one config map, as one. *)
Definition kept (filterOpts : FilterOptions) (configmap : ConfigMap) : bool :=
  negb (HasExcludedLabel (ConfigMap_Labels configmap) (ExcludeLabels filterOpts)).1
  && (HasIncludedAge (ConfigMap_CreationTimestamp configmap) filterOpts).1
  && negb (bool_decide (mapIndex (ConfigMap_Labels configmap) "kor/used" = "true")).

(** The names that [retrieveConfigMapNames] returns for a listing. *)
Definition candidates (filterOpts : FilterOptions) (configmaps : list ConfigMap)
    : list string :=
  ConfigMap_Name <$> filter (λ cm, kept filterOpts cm = true) configmaps.

(** A namespace is processed successfully on a cluster. *)
Definition succeeds (filterOpts : FilterOptions) (clientset : Clientset)
    (namespace : string) : Prop :=
  ∃ diff, processNamespaceCM clientset namespace filterOpts = inr diff.

(** The list that a turn of the loop on a cluster records for a namespace:
    the unused set, or what the deletion executor returns for it. *)
Definition recorded (filterOpts : FilterOptions) (opts : Opts)
    (clientset : Clientset) (namespace : string) : option (list string) :=
  match processNamespaceCM clientset namespace filterOpts with
  | inl _ => None
  | inr diff =>
      Some (if DeleteFlag opts
            then (DeleteResource diff clientset namespace "ConfigMap"
                    (NoInteractive opts)).1.1
            else diff)
  end.
End kor.

(** ** The collapsed variant of the extractor

    The spec allows an implementer to keep one container-level [envFrom]
    sequence instead of two. This variant walks [EnvFrom] once, never touches
    [envFromContainerCM], and leaves it out of the slices that it joins. *)

Definition scanContainer_collapsed (u : UsedCM) (container : Container) : UsedCM :=
  let u :=
    forRange (Container_Env container)
      (λ u env,
         match envConfigMapKeyRef env with
         | Some n => add_envCM u n
         | None => u
         end) u in
  forRange (Container_EnvFrom container)
    (λ u envFrom,
       match EnvFromSource_ConfigMapRef envFrom with
       | Some ref => add_envFromCM u (ConfigMapEnvSource_Name ref)
       | None => u
       end) u.

Definition scanPod_collapsed (u : UsedCM) (pod : Pod) : UsedCM :=
  let u := forRange (PodSpec_Volumes (Pod_Spec pod)) scanVolume u in
  let u := forRange (PodSpec_Containers (Pod_Spec pod)) scanContainer_collapsed u in
  forRange (PodSpec_InitContainers (Pod_Spec pod)) scanInitContainer u.

Definition retrieveUsedCM_collapsed (clientset : Clientset) (namespace : string)
    : Result UsedCM :=
  match Pods_List clientset namespace with
  | inl err => inl err
  | inr pods =>
      let u := forRange pods scanPod_collapsed noUsedCM in
      let u := forRange exceptionconfigmaps (addException namespace) u in
      inr u
  end.

Section kor_collapsed.
Context {FilterOptions ExcludeLabelsT : Type}.
Variable ExcludeLabels : FilterOptions → ExcludeLabelsT.
Variable HasExcludedLabel :
  gmap string string → ExcludeLabelsT → bool * option error.
Variable HasIncludedAge : Time → FilterOptions → bool * option error.

Definition processNamespaceCM_collapsed (clientset : Clientset)
    (namespace : string) (filterOpts : FilterOptions) : Result (list string) :=
  match retrieveUsedCM_collapsed clientset namespace with
  | inl err => inl err
  | inr u =>
      let u :=
        {| volumesCM := RemoveDuplicatesAndSort (volumesCM u);
           volumesProjectedCM := RemoveDuplicatesAndSort (volumesProjectedCM u);
           envCM := RemoveDuplicatesAndSort (envCM u);
           envFromCM := RemoveDuplicatesAndSort (envFromCM u);
           envFromContainerCM := envFromContainerCM u;
           envFromInitContainerCM :=
             RemoveDuplicatesAndSort (envFromInitContainerCM u) |} in
      match retrieveConfigMapNames ExcludeLabels HasExcludedLabel HasIncludedAge
              clientset namespace filterOpts with
      | inl err => inl err
      | inr configMapNames =>
          let slicesToAppend :=
            [volumesCM u; volumesProjectedCM u; envCM u; envFromCM u;
             envFromInitContainerCM u] in
          let usedConfigMaps :=
            forRange slicesToAppend (λ used slice, used ++ slice) [] in
          inr (CalculateResourceDifference usedConfigMaps configMapNames)
      end
  end.
End kor_collapsed.

(** ** What each part of a pod contributes

    The loops only ever append, so the slices that [retrieveUsedCM] returns
    are the contributions of the pods one after the other. *)

Definition app_used (u v : UsedCM) : UsedCM :=
  {| volumesCM := volumesCM u ++ volumesCM v;
     volumesProjectedCM := volumesProjectedCM u ++ volumesProjectedCM v;
     envCM := envCM u ++ envCM v;
     envFromCM := envFromCM u ++ envFromCM v;
     envFromContainerCM := envFromContainerCM u ++ envFromContainerCM v;
     envFromInitContainerCM :=
       envFromInitContainerCM u ++ envFromInitContainerCM v |}.

Definition concat_used {A : Type} (f : A → UsedCM) (xs : list A) : UsedCM :=
  foldr (λ x acc, app_used (f x) acc) noUsedCM xs.

Definition envFromConfigMapRef (envFrom : EnvFromSource) : option string :=
  ConfigMapEnvSource_Name <$> EnvFromSource_ConfigMapRef envFrom.

Definition projectionConfigMap (source : VolumeProjection) : option string :=
  ConfigMapProjection_Name <$> VolumeProjection_ConfigMap source.

Definition mounted (volume : VolumeMount) : Prop :=
  VolumeMount_Name volume ≠ "" ∧ VolumeMount_MountPath volume ≠ "".

Definition volumeRefs (volume : Volume) : UsedCM :=
  {| volumesCM :=
       match Volume_ConfigMap volume with
       | Some cm => [ConfigMapVolumeSource_Name cm]
       | None => []
       end;
     volumesProjectedCM :=
       match Volume_Projected volume with
       | Some projected =>
           omap projectionConfigMap (ProjectedVolumeSource_Sources projected)
       | None => []
       end;
     envCM := []; envFromCM := []; envFromContainerCM := [];
     envFromInitContainerCM := [] |}.

Definition containerRefs (container : Container) : UsedCM :=
  {| volumesCM := []; volumesProjectedCM := [];
     envCM := omap envConfigMapKeyRef (Container_Env container);
     envFromCM := omap envFromConfigMapRef (Container_EnvFrom container);
     envFromContainerCM := omap envFromConfigMapRef (Container_EnvFrom container);
     envFromInitContainerCM := [] |}.

Definition containerRefs_collapsed (container : Container) : UsedCM :=
  {| volumesCM := []; volumesProjectedCM := [];
     envCM := omap envConfigMapKeyRef (Container_Env container);
     envFromCM := omap envFromConfigMapRef (Container_EnvFrom container);
     envFromContainerCM := [];
     envFromInitContainerCM := [] |}.

Definition initContainerRefs (initContainer : Container) : UsedCM :=
  {| volumesCM :=
       VolumeMount_Name <$> filter mounted (Container_VolumeMounts initContainer);
     volumesProjectedCM := []; envCM := []; envFromCM := [];
     envFromContainerCM := [];
     envFromInitContainerCM := omap envConfigMapKeyRef (Container_Env initContainer) |}.

Definition podRefs (pod : Pod) : UsedCM :=
  app_used (concat_used volumeRefs (PodSpec_Volumes (Pod_Spec pod)))
    (app_used (concat_used containerRefs (PodSpec_Containers (Pod_Spec pod)))
       (concat_used initContainerRefs (PodSpec_InitContainers (Pod_Spec pod)))).

Definition podRefs_collapsed (pod : Pod) : UsedCM :=
  app_used (concat_used volumeRefs (PodSpec_Volumes (Pod_Spec pod)))
    (app_used
       (concat_used containerRefs_collapsed (PodSpec_Containers (Pod_Spec pod)))
       (concat_used initContainerRefs (PodSpec_InitContainers (Pod_Spec pod)))).

Definition exempted (namespace : string) (resource : ExceptionResource) : Prop :=
  Namespace resource = namespace ∨ Namespace resource = "*".

Definition exceptionRefs (namespace : string) (resource : ExceptionResource)
    : UsedCM :=
  {| volumesCM :=
       if decide (exempted namespace resource) then [ResourceName resource] else [];
     volumesProjectedCM := []; envCM := []; envFromCM := [];
     envFromContainerCM := []; envFromInitContainerCM := [] |}.

(** Every name in one of the six slices. *)
Definition referenced (u : UsedCM) (x : string) : Prop :=
  x ∈ volumesCM u ∨ x ∈ volumesProjectedCM u ∨ x ∈ envCM u ∨ x ∈ envFromCM u
  ∨ x ∈ envFromContainerCM u ∨ x ∈ envFromInitContainerCM u.

(** ** The ways in which a pod names a config map *)

Inductive Attachment :=
  | ByVolume | ByProjectedVolume | ByEnv | ByEnvFrom | ByInitEnv | ByInitEnvFrom.

Definition references (how : Attachment) (pod : Pod) (x : string) : Prop :=
  match how with
  | ByVolume =>
      ∃ volume cm, volume ∈ PodSpec_Volumes (Pod_Spec pod)
        ∧ Volume_ConfigMap volume = Some cm ∧ ConfigMapVolumeSource_Name cm = x
  | ByProjectedVolume =>
      ∃ volume projected source, volume ∈ PodSpec_Volumes (Pod_Spec pod)
        ∧ Volume_Projected volume = Some projected
        ∧ source ∈ ProjectedVolumeSource_Sources projected
        ∧ projectionConfigMap source = Some x
  | ByEnv =>
      ∃ container env, container ∈ PodSpec_Containers (Pod_Spec pod)
        ∧ env ∈ Container_Env container ∧ envConfigMapKeyRef env = Some x
  | ByEnvFrom =>
      ∃ container envFrom, container ∈ PodSpec_Containers (Pod_Spec pod)
        ∧ envFrom ∈ Container_EnvFrom container
        ∧ envFromConfigMapRef envFrom = Some x
  | ByInitEnv =>
      ∃ container env, container ∈ PodSpec_InitContainers (Pod_Spec pod)
        ∧ env ∈ Container_Env container ∧ envConfigMapKeyRef env = Some x
  | ByInitEnvFrom =>
      ∃ container envFrom, container ∈ PodSpec_InitContainers (Pod_Spec pod)
        ∧ envFrom ∈ Container_EnvFrom container
        ∧ envFromConfigMapRef envFrom = Some x
  end.

(** What [retrieveUsedCM] returns, as a whole. *)
Definition usedOf (namespace : string) (pods : list Pod) : UsedCM :=
  app_used (concat_used podRefs pods)
    (concat_used (exceptionRefs namespace) exceptionconfigmaps).

Definition usedOf_collapsed (namespace : string) (pods : list Pod) : UsedCM :=
  app_used (concat_used podRefs_collapsed pods)
    (concat_used (exceptionRefs namespace) exceptionconfigmaps).

(** The six slices as [processNamespaceCM] joins them. *)
Definition joined (u : UsedCM) : list string :=
  RemoveDuplicatesAndSort (volumesCM u)
  ++ RemoveDuplicatesAndSort (volumesProjectedCM u)
  ++ RemoveDuplicatesAndSort (envCM u)
  ++ RemoveDuplicatesAndSort (envFromCM u)
  ++ RemoveDuplicatesAndSort (envFromContainerCM u)
  ++ RemoveDuplicatesAndSort (envFromInitContainerCM u).

(** ** What ends up in the volume slice besides config maps *)

(** An init container of the pod mounts a volume of that name, with a name
    and a mount path that are not empty. *)
Definition mountsVolume (pod : Pod) (x : string) : Prop :=
  ∃ initContainer volume,
    initContainer ∈ PodSpec_InitContainers (Pod_Spec pod)
    ∧ volume ∈ Container_VolumeMounts initContainer
    ∧ mounted volume ∧ VolumeMount_Name volume = x.

(** The name is exempted in the namespace by [exceptionconfigmaps]. *)
Definition exemptedName (namespace x : string) : Prop :=
  ∃ resource,
    resource ∈ exceptionconfigmaps ∧ exempted namespace resource
    ∧ ResourceName resource = x.

(** ** The two reports of a run, read off a cluster that does not change *)
Section kor_reports.
Context {FilterOptions ExcludeLabelsT : Type}.
Variable ExcludeLabels : FilterOptions → ExcludeLabelsT.
Variable HasExcludedLabel :
  gmap string string → ExcludeLabelsT → bool * option error.
Variable HasIncludedAge : Time → FilterOptions → bool * option error.
Variable FormatOutput : string → list string → string → string.

(** One line for every turn that fails. *)
Definition failureLines (filterOpts : FilterOptions) (clientset : Clientset)
    (namespaces : list string) : list string :=
  omap (λ namespace,
          match processNamespaceCM ExcludeLabels HasExcludedLabel HasIncludedAge
                  clientset namespace filterOpts with
          | inl err =>
              Some ("Failed to process namespace " +:+ namespace +:+ ": "
                      +:+ err +:+ LF)
          | inr _ => None
          end) namespaces.

(** One block of text for every turn that succeeds. *)
Definition reportBlocks (filterOpts : FilterOptions) (clientset : Clientset)
    (namespaces : list string) : list string :=
  omap (λ namespace,
          match processNamespaceCM ExcludeLabels HasExcludedLabel HasIncludedAge
                  clientset namespace filterOpts with
          | inl _ => None
          | inr diff => Some (FormatOutput namespace diff "Configmaps" +:+ LF)
          end) namespaces.
End kor_reports.

(** ** Concrete clusters and collaborators *)
Module Scenario.

Definition noExcludedLabel (labels : gmap string string) (sel : unit)
    : bool * option error := (false, None).
Definition anyAge (t : Time) (filterOpts : unit) : bool * option error :=
  (true, None).
Definition excludeLabels (filterOpts : unit) : unit := tt.

(** A string literal without anything to escape. *)
Definition quote (s : string) : string :=
  let q := String (Ascii.Ascii false true false false false true false false) "" in
  q +:+ s +:+ q.

Definition formatOutput (namespace : string) (diff : list string)
    (kind : string) : string :=
  "Unused " +:+ kind +:+ " in namespace " +:+ namespace +:+ ": " +:+ fmtStrings diff.

(** Table output is the text buffer, any other format the document. *)
Definition formatter (outputFormat outputBuffer : string) (opts : Opts)
    (jsonResponse : string) : string * option error :=
  if bool_decide (outputFormat = "table") then (outputBuffer, None)
  else (jsonResponse, None).

(** A formatter that gives up. *)
Definition brokenFormatter (outputFormat outputBuffer : string) (opts : Opts)
    (jsonResponse : string) : string * option error :=
  ("", Some "unsupported output format").

(** A deletion executor for which every deletion succeeds: nothing is left
    over, and the deleted config maps are gone from the namespace. *)
Definition deleteAll (names : list string) (clientset : Clientset)
    (namespace kind : string) (noInteractive : bool)
    : (list string * option error) * Clientset :=
  ([], None,
   {| Pods_List := Pods_List clientset;
      ConfigMaps_List := λ ns,
        if bool_decide (ns = namespace) then
          match ConfigMaps_List clientset ns with
          | inl err => inl err
          | inr cms =>
              inr (filter (λ cm, ConfigMap_Name cm ∉ names) cms)
          end
        else ConfigMaps_List clientset ns |}).

Definition namespaceList (namespaces : list string) (l : unit)
    (clientset : Clientset) : list string := namespaces.

Definition cm (name : string) : ConfigMap :=
  {| ConfigMap_Name := name; ConfigMap_Labels := ∅;
     ConfigMap_CreationTimestamp := 0%Z |}.

Definition cmUsed (name : string) : ConfigMap :=
  {| ConfigMap_Name := name; ConfigMap_Labels := {[ "kor/used" := "true" ]};
     ConfigMap_CreationTimestamp := 0%Z |}.

Definition envRef (name : string) : EnvVar :=
  {| EnvVar_Name := "SETTING"; EnvVar_Value := "";
     EnvVar_ValueFrom :=
       Some {| EnvVarSource_ConfigMapKeyRef :=
                 Some {| ConfigMapKeySelector_Name := name;
                         ConfigMapKeySelector_Key := "key" |} |} |}.

Definition envFromRef (name : string) : EnvFromSource :=
  {| EnvFromSource_ConfigMapRef := Some {| ConfigMapEnvSource_Name := name |} |}.

Definition container (env : list EnvVar) (envFrom : list EnvFromSource)
    (mounts : list VolumeMount) : Container :=
  {| Container_Name := "main"; Container_Env := env;
     Container_EnvFrom := envFrom; Container_VolumeMounts := mounts |}.

Definition pod (containers initContainers : list Container) : Pod :=
  {| Pod_Name := "pod";
     Pod_Spec := {| PodSpec_Volumes := []; PodSpec_Containers := containers;
                    PodSpec_InitContainers := initContainers |} |}.

(** The scenario of the spec: in [ns1], [cm-a] is referenced by an
    environment variable of a container and [cm-b] by nothing. Listing the
    pods of [broken] fails; every other namespace looks like [ns1]. *)
Definition appPod : Pod := pod [container [envRef "cm-a"] [] []] [].

Definition cluster : Clientset :=
  {| Pods_List := λ ns,
       if bool_decide (ns = "broken") then inl "the server is unavailable"
       else inr [appPod];
     ConfigMaps_List := λ ns, inr [cm "cm-b"; cm "cm-a"] |}.

(** A pod whose init container imports [cm-x] with [envFrom], and the
    config map [cm-x]. *)
Definition initEnvFromPod : Pod := pod [] [container [] [envFromRef "cm-x"] []].

Definition initEnvFromCluster : Clientset :=
  {| Pods_List := λ ns, inr [initEnvFromPod];
     ConfigMaps_List := λ ns, inr [cm "cm-x"] |}.

(** A pod whose init container mounts a volume called [scratch], and a
    config map that happens to have that name. *)
Definition scratchMount : VolumeMount :=
  {| VolumeMount_Name := "scratch"; VolumeMount_MountPath := "/scratch" |}.
Definition initMountPod : Pod := pod [] [container [] [] [scratchMount]].

Definition initMountCluster : Clientset :=
  {| Pods_List := λ ns, inr [initMountPod];
     ConfigMaps_List := λ ns, inr [cm "scratch"; cm "other"] |}.

(** A namespace with a config map marked as used and no pod at all. *)
Definition markedCluster : Clientset :=
  {| Pods_List := λ ns, inr [];
     ConfigMaps_List := λ ns, inr [cmUsed "keep-me"; cm "stale"] |}.

(** [kube-system] with the two exempted config maps and one more, and no
    pod that refers to any of them. *)
Definition systemCluster : Clientset :=
  {| Pods_List := λ ns, inr [];
     ConfigMaps_List := λ ns,
       inr [cm "kube-root-ca.crt"; cm "coredns"; cm "aws-auth"] |}.

(** A listing that is not in the order of the names. *)
Definition unorderedCluster : Clientset :=
  {| Pods_List := λ ns, inr [appPod];
     ConfigMaps_List := λ ns, inr [cm "zeta"; cm "cm-a"; cm "alpha"; cm "mid"] |}.

(** A pod that names config maps in every way the extractor walks, and in
    some it does not: a volume, a projected volume, an environment variable
    and an [envFrom] entry of a container, a volume mount of that container,
    and in the init container an environment variable, a mount with an empty
    path and a mount with a path. *)
Definition busyPod : Pod :=
  {| Pod_Name := "busy";
     Pod_Spec :=
       {| PodSpec_Volumes :=
            [ {| Volume_Name := "config";
                 Volume_ConfigMap :=
                   Some {| ConfigMapVolumeSource_Name := "cm-volume" |};
                 Volume_Projected :=
                   Some {| ProjectedVolumeSource_Sources :=
                             [ {| VolumeProjection_ConfigMap := None |};
                               {| VolumeProjection_ConfigMap :=
                                    Some {| ConfigMapProjection_Name :=
                                              "cm-projected" |} |} ] |} |} ];
          PodSpec_Containers :=
            [ container [envRef "cm-env"] [envFromRef "cm-envfrom"]
                [ {| VolumeMount_Name := "main-mount";
                     VolumeMount_MountPath := "/etc/main" |} ] ];
          PodSpec_InitContainers :=
            [ container [envRef "cm-init-env"] []
                [ {| VolumeMount_Name := "no-path"; VolumeMount_MountPath := "" |};
                  scratchMount ] ] |} |}.

Definition busyCluster : Clientset :=
  {| Pods_List := λ ns, inr [busyPod; busyPod];
     ConfigMaps_List := λ ns,
       inr [cm "cm-volume"; cm "cm-envfrom"; cm "main-mount"; cm "no-path";
            cm "scratch"] |}.

(** Listing the config maps of [half-broken] fails, and so does listing the
    pods and the config maps of [broken]. *)
Definition flakyCluster : Clientset :=
  {| Pods_List := λ ns,
       if bool_decide (ns = "broken") then inl "pods: forbidden"
       else inr [appPod];
     ConfigMaps_List := λ ns,
       if bool_decide (ns = "broken") || bool_decide (ns = "half-broken")
       then inl "configmaps: forbidden"
       else inr [cm "cm-b"; cm "cm-a"] |}.

(** Filters that read the label [skip] and the creation time. *)
Definition skipLabelled (labels : gmap string string) (sel : unit)
    : bool * option error :=
  (bool_decide (labels !! "skip" = Some "yes"), None).
Definition olderThan100 (t : Time) (filterOpts : unit) : bool * option error :=
  (bool_decide (t < 100)%Z, Some "age filter: no bound given").

Definition cmWith (name : string) (labels : gmap string string) (t : Time)
    : ConfigMap :=
  {| ConfigMap_Name := name; ConfigMap_Labels := labels;
     ConfigMap_CreationTimestamp := t |}.

Definition cmOld : ConfigMap := cmWith "old" ∅ 5%Z.
Definition cmSkipped : ConfigMap := cmWith "skipped" {[ "skip" := "yes" ]} 5%Z.
Definition cmYoung : ConfigMap := cmWith "young" ∅ 500%Z.
Definition cmNotMarked : ConfigMap :=
  cmWith "not-marked" {[ "kor/used" := "false" ]} 7%Z.

Definition filteredListing : list ConfigMap :=
  [cmOld; cmSkipped; cmYoung; cmNotMarked].

Definition filteredCluster : Clientset :=
  {| Pods_List := λ ns, inr []; ConfigMaps_List := λ ns, inr filteredListing |}.

(** A deletion executor that deletes nothing and says so. *)
Definition deleteNone (names : list string) (clientset : Clientset)
    (namespace kind : string) (noInteractive : bool)
    : (list string * option error) * Clientset :=
  (names, Some "delete: forbidden", clientset).

(** What the extractor returns for [busyCluster]. *)
Definition busyUsed : UsedCM :=
  {| volumesCM :=
       ["cm-volume"; "scratch"; "cm-volume"; "scratch"; "kube-root-ca.crt"];
     volumesProjectedCM := ["cm-projected"; "cm-projected"];
     envCM := ["cm-env"; "cm-env"];
     envFromCM := ["cm-envfrom"; "cm-envfrom"];
     envFromContainerCM := ["cm-envfrom"; "cm-envfrom"];
     envFromInitContainerCM := ["cm-init-env"; "cm-init-env"] |}.

(** The same two pods, listed in two orders. *)
Definition twoPodsCluster : Clientset :=
  {| Pods_List := λ ns, inr [appPod; busyPod];
     ConfigMaps_List := λ ns, inr [cm "cm-b"; cm "cm-a"; cm "cm-env"] |}.
Definition swappedPodsCluster : Clientset :=
  {| Pods_List := λ ns, inr [busyPod; appPod];
     ConfigMaps_List := λ ns, inr [cm "cm-b"; cm "cm-a"; cm "cm-env"] |}.

(** A cluster that answers nothing. *)
Definition downCluster : Clientset :=
  {| Pods_List := λ ns, inl "connection refused";
     ConfigMaps_List := λ ns, inl "connection refused" |}.

(** A deletion executor after which the cluster is down. *)
Definition deleteAndBreak (names : list string) (clientset : Clientset)
    (namespace kind : string) (noInteractive : bool)
    : (list string * option error) * Clientset :=
  ([], None, downCluster).

Definition keepAll : Opts := {| DeleteFlag := false; NoInteractive := true |}.
Definition deleteUnused : Opts := {| DeleteFlag := true; NoInteractive := true |}.

End Scenario.

(** ** The two helpers *)

Lemma elem_of_RemoveDuplicatesAndSort (x : string) (l : list string) :
  x ∈ RemoveDuplicatesAndSort l ↔ x ∈ l.
Proof.
  unfold RemoveDuplicatesAndSort.
  rewrite merge_sort_Permutation. apply elem_of_remove_dups.
Qed.

Lemma RemoveDuplicatesAndSort_sorted (l : list string) :
  StronglySorted String.le (RemoveDuplicatesAndSort l).
Proof. unfold RemoveDuplicatesAndSort. apply StronglySorted_merge_sort; apply _. Qed.

Lemma RemoveDuplicatesAndSort_NoDup (l : list string) :
  NoDup (RemoveDuplicatesAndSort l).
Proof.
  unfold RemoveDuplicatesAndSort.
  rewrite merge_sort_Permutation. apply NoDup_remove_dups.
Qed.

Lemma elem_of_CalculateResourceDifference (x : string) (used all : list string) :
  x ∈ CalculateResourceDifference used all ↔ x ∈ all ∧ x ∉ used.
Proof.
  unfold CalculateResourceDifference.
  rewrite elem_of_RemoveDuplicatesAndSort, list_elem_of_filter. tauto.
Qed.

(** The difference looks at the referenced names only as a set. *)
Lemma CalculateResourceDifference_ext (used used' all : list string) :
  (∀ x, x ∈ used ↔ x ∈ used') →
  CalculateResourceDifference used all = CalculateResourceDifference used' all.
Proof.
  intros Hext. unfold CalculateResourceDifference. f_equal.
  induction all as [|a all IH]; [done|].
  rewrite !filter_cons, IH.
  destruct (decide (a ∉ used)) as [Hu|Hu], (decide (a ∉ used')) as [Hu'|Hu'];
    try done; exfalso; rewrite Hext in Hu; contradiction.
Qed.

(** ** Loops that append *)

Lemma forRange_cons {A S : Type} (body : S → A → S) (x : A) (xs : list A) (s : S) :
  forRange (x :: xs) body s = forRange xs body (body s x).
Proof. reflexivity. Qed.

Lemma forRange_app {A S : Type} (body : S → A → S) (xs ys : list A) (s : S) :
  forRange (xs ++ ys) body s = forRange ys body (forRange xs body s).
Proof. unfold forRange. apply fold_left_app. Qed.

Ltac used_eq :=
  repeat match goal with u : UsedCM |- _ => destruct u end;
  unfold app_used, noUsedCM, add_volumesCM, add_volumesProjectedCM, add_envCM,
    add_envFromCM, add_envFromContainerCM, add_envFromInitContainerCM; simpl;
  rewrite ?app_nil_r, <- ?app_assoc; reflexivity.

Lemma app_used_nil_r (u : UsedCM) : app_used u noUsedCM = u.
Proof. used_eq. Qed.

Lemma app_used_nil_l (u : UsedCM) : app_used noUsedCM u = u.
Proof. used_eq. Qed.

Lemma app_used_assoc (u v w : UsedCM) :
  app_used (app_used u v) w = app_used u (app_used v w).
Proof. used_eq. Qed.

(** A loop whose body appends the contribution of its element appends the
    contributions of all of them. *)
Lemma forRange_app_used {A : Type} (body : UsedCM → A → UsedCM) (f : A → UsedCM) :
  (∀ u a, body u a = app_used u (f a)) →
  ∀ xs u, forRange xs body u = app_used u (concat_used f xs).
Proof.
  intros Hbody xs. induction xs as [|x xs IH]; intros u.
  - change (u = app_used u noUsedCM). by rewrite app_used_nil_r.
  - rewrite forRange_cons, IH, Hbody, app_used_assoc. reflexivity.
Qed.

Lemma concat_used_option {A : Type} (g : A → option string) (single : string → UsedCM)
    (many : list string → UsedCM) (xs : list A) :
  many [] = noUsedCM →
  (∀ n l, app_used (single n) (many l) = many (n :: l)) →
  concat_used (λ x, match g x with Some n => single n | None => noUsedCM end) xs
  = many (omap g xs).
Proof.
  intros Hnil Hcons. induction xs as [|x xs IH]; simpl; [done|].
  rewrite IH. destruct (g x); simpl; [apply Hcons | apply app_used_nil_l].
Qed.

Ltac option_loop g single many :=
  rewrite (forRange_app_used _
             (λ x, match g x with Some n => single n | None => noUsedCM end));
  [ rewrite (concat_used_option g single many);
    [ | reflexivity | intros; reflexivity ]
  | let u := fresh "u" in
    let a := fresh "a" in
    intros u a; unfold g; cbn;
    repeat match goal with
           | |- context [match ?o with Some _ => _ | None => _ end] =>
               destruct o; cbn
           end;
    used_eq ].

Lemma scanVolume_refs (u : UsedCM) (volume : Volume) :
  scanVolume u volume = app_used u (volumeRefs volume).
Proof.
  unfold scanVolume, volumeRefs.
  destruct (Volume_Projected volume) as [projected|].
  - option_loop projectionConfigMap
      (λ n, Build_UsedCM [] [n] [] [] [] [])
      (λ l, Build_UsedCM [] l [] [] [] []).
    destruct (Volume_ConfigMap volume); used_eq.
  - destruct (Volume_ConfigMap volume); used_eq.
Qed.

Lemma scanContainer_refs (u : UsedCM) (container : Container) :
  scanContainer u container = app_used u (containerRefs container).
Proof.
  unfold scanContainer, containerRefs.
  option_loop envFromConfigMapRef
    (λ n, Build_UsedCM [] [] [] [] [n] [])
    (λ l, Build_UsedCM [] [] [] [] l []).
  option_loop envFromConfigMapRef
    (λ n, Build_UsedCM [] [] [] [n] [] [])
    (λ l, Build_UsedCM [] [] [] l [] []).
  option_loop envConfigMapKeyRef
    (λ n, Build_UsedCM [] [] [n] [] [] [])
    (λ l, Build_UsedCM [] [] l [] [] []).
  used_eq.
Qed.

Lemma scanContainer_collapsed_refs (u : UsedCM) (container : Container) :
  scanContainer_collapsed u container
  = app_used u (containerRefs_collapsed container).
Proof.
  unfold scanContainer_collapsed, containerRefs_collapsed.
  option_loop envFromConfigMapRef
    (λ n, Build_UsedCM [] [] [] [n] [] [])
    (λ l, Build_UsedCM [] [] [] l [] []).
  option_loop envConfigMapKeyRef
    (λ n, Build_UsedCM [] [] [n] [] [] [])
    (λ l, Build_UsedCM [] [] l [] [] []).
  used_eq.
Qed.

Lemma mounts_loop (mounts : list VolumeMount) (u : UsedCM) :
  forRange mounts
    (λ u volume,
       if bool_decide (VolumeMount_Name volume ≠ "")
          && bool_decide (VolumeMount_MountPath volume ≠ "")
       then add_volumesCM u (VolumeMount_Name volume)
       else u) u
  = app_used u
      (Build_UsedCM (VolumeMount_Name <$> filter mounted mounts) [] [] [] [] []).
Proof.
  revert u. induction mounts as [|m mounts IH]; intros u.
  - change (u = app_used u noUsedCM). by rewrite app_used_nil_r.
  - rewrite forRange_cons, IH, filter_cons.
    destruct (decide (mounted m)) as [[Hn Hp]|Hm].
    + rewrite !bool_decide_eq_true_2 by done. cbn. used_eq.
    + assert (bool_decide (VolumeMount_Name m ≠ "")
              && bool_decide (VolumeMount_MountPath m ≠ "") = false) as ->.
      { apply not_true_is_false. intros [Hn Hp]%andb_true_iff.
        apply Hm. split; eapply bool_decide_eq_true_1; eassumption. }
      reflexivity.
Qed.

Lemma scanInitContainer_refs (u : UsedCM) (initContainer : Container) :
  scanInitContainer u initContainer = app_used u (initContainerRefs initContainer).
Proof.
  unfold scanInitContainer, initContainerRefs.
  option_loop envConfigMapKeyRef
    (λ n, Build_UsedCM [] [] [] [] [] [n])
    (λ l, Build_UsedCM [] [] [] [] [] l).
  rewrite mounts_loop. used_eq.
Qed.

Lemma scanPod_refs (u : UsedCM) (pod : Pod) :
  scanPod u pod = app_used u (podRefs pod).
Proof.
  unfold scanPod, podRefs.
  rewrite (forRange_app_used _ _ scanInitContainer_refs).
  rewrite (forRange_app_used _ _ scanContainer_refs).
  rewrite (forRange_app_used _ _ scanVolume_refs).
  by rewrite !app_used_assoc.
Qed.

Lemma scanPod_collapsed_refs (u : UsedCM) (pod : Pod) :
  scanPod_collapsed u pod = app_used u (podRefs_collapsed pod).
Proof.
  unfold scanPod_collapsed, podRefs_collapsed.
  rewrite (forRange_app_used _ _ scanInitContainer_refs).
  rewrite (forRange_app_used _ _ scanContainer_collapsed_refs).
  rewrite (forRange_app_used _ _ scanVolume_refs).
  by rewrite !app_used_assoc.
Qed.

Lemma addException_refs (namespace : string) (u : UsedCM)
    (resource : ExceptionResource) :
  addException namespace u resource = app_used u (exceptionRefs namespace resource).
Proof.
  unfold addException, exceptionRefs, exempted.
  destruct (decide _) as [He|He].
  - assert (bool_decide (Namespace resource = namespace)
            || bool_decide (Namespace resource = "*") = true) as ->; [|used_eq].
    apply orb_true_iff.
    destruct He; [left|right]; by apply bool_decide_eq_true_2.
  - assert (bool_decide (Namespace resource = namespace)
            || bool_decide (Namespace resource = "*") = false) as ->; [|used_eq].
    apply not_true_is_false. intros [H|H]%orb_true_iff;
      apply He; [left|right]; eapply bool_decide_eq_true_1; eassumption.
Qed.

Lemma retrieveUsedCM_eq (clientset : Clientset) (namespace : string) :
  retrieveUsedCM clientset namespace
  = match Pods_List clientset namespace with
    | inl err => inl err
    | inr pods => inr (usedOf namespace pods)
    end.
Proof.
  unfold retrieveUsedCM, usedOf. destruct (Pods_List _ _) as [err|pods]; [done|].
  rewrite (forRange_app_used _ _ (addException_refs namespace)).
  rewrite (forRange_app_used _ _ scanPod_refs).
  by rewrite app_used_nil_l.
Qed.

Lemma retrieveUsedCM_collapsed_eq (clientset : Clientset) (namespace : string) :
  retrieveUsedCM_collapsed clientset namespace
  = match Pods_List clientset namespace with
    | inl err => inl err
    | inr pods => inr (usedOf_collapsed namespace pods)
    end.
Proof.
  unfold retrieveUsedCM_collapsed, usedOf_collapsed.
  destruct (Pods_List _ _) as [err|pods]; [done|].
  rewrite (forRange_app_used _ _ (addException_refs namespace)).
  rewrite (forRange_app_used _ _ scanPod_collapsed_refs).
  by rewrite app_used_nil_l.
Qed.

(** ** Membership in the six slices *)

Lemma referenced_app_used (u v : UsedCM) (x : string) :
  referenced (app_used u v) x ↔ referenced u x ∨ referenced v x.
Proof. unfold referenced; simpl. rewrite !elem_of_app. tauto. Qed.

Lemma referenced_noUsedCM (x : string) : ¬ referenced noUsedCM x.
Proof. unfold referenced; simpl. rewrite !elem_of_nil. tauto. Qed.

Lemma referenced_concat_used {A : Type} (f : A → UsedCM) (xs : list A) (x : string) :
  referenced (concat_used f xs) x ↔ ∃ a, a ∈ xs ∧ referenced (f a) x.
Proof.
  induction xs as [|a xs IH]; simpl.
  - split; [intros H; by apply referenced_noUsedCM in H|].
    intros (a & Ha & _). by apply elem_of_nil in Ha.
  - rewrite referenced_app_used, IH. split.
    + intros [H|(b & Hb & H)]; [exists a | exists b]; split; auto;
        [left | by right].
    + intros (b & [->|Hb]%elem_of_cons & H); [by left | right; eauto].
Qed.

Lemma volumesCM_concat_used {A : Type} (f : A → UsedCM) (xs : list A) (x : string) :
  x ∈ volumesCM (concat_used f xs) ↔ ∃ a, a ∈ xs ∧ x ∈ volumesCM (f a).
Proof.
  induction xs as [|a xs IH]; simpl.
  - rewrite elem_of_nil. split; [done|]. intros (a & Ha & _).
    by apply elem_of_nil in Ha.
  - rewrite elem_of_app, IH. split.
    + intros [H|(b & Hb & H)]; [exists a | exists b]; split; auto;
        [left | by right].
    + intros (b & [->|Hb]%elem_of_cons & H); [by left | right; eauto].
Qed.

Lemma elem_of_joined (u : UsedCM) (x : string) : x ∈ joined u ↔ referenced u x.
Proof.
  unfold joined, referenced.
  rewrite !elem_of_app, !elem_of_RemoveDuplicatesAndSort. tauto.
Qed.

(** The two [envFrom] slices of the extractor hold the same names, so leaving
    one out changes no membership. *)
Lemma referenced_collapsed (namespace : string) (pods : list Pod) (x : string) :
  referenced (usedOf_collapsed namespace pods) x
  ↔ referenced (usedOf namespace pods) x.
Proof.
  unfold usedOf, usedOf_collapsed.
  rewrite !referenced_app_used, !referenced_concat_used.
  apply or_iff_compat_r. apply exist_proper; intros pod.
  apply and_iff_compat_l.
  unfold podRefs, podRefs_collapsed.
  rewrite !referenced_app_used, !referenced_concat_used.
  apply or_iff_compat_l, or_iff_compat_r. apply exist_proper; intros c.
  apply and_iff_compat_l.
  unfold referenced, containerRefs, containerRefs_collapsed; simpl.
  rewrite !elem_of_nil. tauto.
Qed.

Section kor_facts.
Context {FilterOptions ExcludeLabelsT IncludeExcludeLists : Type}.
Variable ExcludeLabels : FilterOptions → ExcludeLabelsT.
Variable HasExcludedLabel :
  gmap string string → ExcludeLabelsT → bool * option error.
Variable HasIncludedAge : Time → FilterOptions → bool * option error.

Local Abbreviation kept := (kept ExcludeLabels HasExcludedLabel HasIncludedAge).
Local Abbreviation candidates :=
  (candidates ExcludeLabels HasExcludedLabel HasIncludedAge).
Local Abbreviation keepConfigMap :=
  (keepConfigMap ExcludeLabels HasExcludedLabel HasIncludedAge).
Local Abbreviation retrieveConfigMapNames :=
  (retrieveConfigMapNames ExcludeLabels HasExcludedLabel HasIncludedAge).
Local Abbreviation processNamespaceCM :=
  (processNamespaceCM ExcludeLabels HasExcludedLabel HasIncludedAge).
Local Abbreviation processNamespaceCM_collapsed :=
  (processNamespaceCM_collapsed ExcludeLabels HasExcludedLabel HasIncludedAge).

Lemma keepConfigMap_loop (filterOpts : FilterOptions)
    (configmaps : list ConfigMap) (names : list string) :
  forRange configmaps (keepConfigMap filterOpts) names
  = names ++ candidates filterOpts configmaps.
Proof.
  unfold candidates. revert names.
  induction configmaps as [|cm cms IH]; intros names.
  - change (names = names ++ []). by rewrite app_nil_r.
  - rewrite forRange_cons, IH, filter_cons.
    destruct (decide (kept filterOpts cm = true)) as [Hk|Hk];
      unfold kept in Hk; unfold keepConfigMap;
      destruct (HasExcludedLabel _ _).1, (HasIncludedAge _ _).1,
        (bool_decide _); simpl in *; try done.
    by rewrite <- app_assoc.
Qed.

Lemma processNamespaceCM_eq (clientset : Clientset) (namespace : string)
    (filterOpts : FilterOptions) :
  processNamespaceCM clientset namespace filterOpts
  = match Pods_List clientset namespace with
    | inl err => inl err
    | inr pods =>
        match ConfigMaps_List clientset namespace with
        | inl err => inl err
        | inr configmaps =>
            inr (CalculateResourceDifference (joined (usedOf namespace pods))
                   (candidates filterOpts configmaps))
        end
    end.
Proof.
  unfold processNamespaceCM, retrieveConfigMapNames.
  rewrite retrieveUsedCM_eq.
  destruct (Pods_List _ _) as [err|pods]; [done|].
  destruct (ConfigMaps_List _ _) as [err|cms]; [done|].
  rewrite keepConfigMap_loop. unfold joined. cbn.
  by rewrite <- !app_assoc.
Qed.

Lemma processNamespaceCM_collapsed_eq (clientset : Clientset)
    (namespace : string) (filterOpts : FilterOptions) :
  processNamespaceCM_collapsed clientset namespace filterOpts
  = match Pods_List clientset namespace with
    | inl err => inl err
    | inr pods =>
        match ConfigMaps_List clientset namespace with
        | inl err => inl err
        | inr configmaps =>
            let u := usedOf_collapsed namespace pods in
            inr (CalculateResourceDifference
                   (RemoveDuplicatesAndSort (volumesCM u)
                    ++ RemoveDuplicatesAndSort (volumesProjectedCM u)
                    ++ RemoveDuplicatesAndSort (envCM u)
                    ++ RemoveDuplicatesAndSort (envFromCM u)
                    ++ RemoveDuplicatesAndSort (envFromInitContainerCM u))
                   (candidates filterOpts configmaps))
        end
    end.
Proof.
  unfold processNamespaceCM_collapsed, retrieveConfigMapNames.
  rewrite retrieveUsedCM_collapsed_eq.
  destruct (Pods_List _ _) as [err|pods]; [done|].
  destruct (ConfigMaps_List _ _) as [err|cms]; [done|].
  rewrite keepConfigMap_loop. unfold joined. cbn.
  by rewrite <- !app_assoc.
Qed.

(** The unused set of a namespace: the candidates that no slice holds. *)
Lemma elem_of_unused (clientset : Clientset) (namespace : string)
    (filterOpts : FilterOptions) (diff : list string) :
  processNamespaceCM clientset namespace filterOpts = inr diff →
  ∃ pods configmaps,
    Pods_List clientset namespace = inr pods
    ∧ ConfigMaps_List clientset namespace = inr configmaps
    ∧ ∀ x, x ∈ diff
           ↔ x ∈ candidates filterOpts configmaps
             ∧ ¬ referenced (usedOf namespace pods) x.
Proof.
  rewrite processNamespaceCM_eq.
  destruct (Pods_List _ _) as [err|pods]; [done|].
  destruct (ConfigMaps_List _ _) as [err|cms]; [done|].
  intros [= <-]. exists pods, cms. split_and!; [done..|].
  intros x. by rewrite elem_of_CalculateResourceDifference, elem_of_joined.
Qed.

(** A namespace is processed successfully exactly when both of its listings
    are. *)
Lemma succeeds_iff (clientset : Clientset) (namespace : string)
    (filterOpts : FilterOptions) :
  succeeds ExcludeLabels HasExcludedLabel HasIncludedAge filterOpts clientset
    namespace
  ↔ (∃ pods, Pods_List clientset namespace = inr pods)
    ∧ (∃ configmaps, ConfigMaps_List clientset namespace = inr configmaps).
Proof.
  unfold succeeds. rewrite processNamespaceCM_eq.
  destruct (Pods_List _ _) as [err|pods].
  { split; [by intros [? ?] | by intros [[? ?] _]]. }
  destruct (ConfigMaps_List _ _) as [err|cms].
  { split; [by intros [? ?] | by intros [_ [? ?]]]. }
  split; eauto.
Qed.

Lemma exception_referenced (namespace : string) (pods : list Pod)
    (resource : ExceptionResource) :
  resource ∈ exceptionconfigmaps → exempted namespace resource →
  referenced (usedOf namespace pods) (ResourceName resource).
Proof.
  intros Hin Hex. unfold usedOf. apply referenced_app_used. right.
  apply referenced_concat_used. exists resource. split; [done|].
  unfold referenced, exceptionRefs; simpl. rewrite decide_True by done.
  left. apply list_elem_of_singleton. reflexivity.
Qed.

(** The attachments that the extractor walks all end up in a slice. *)
Lemma references_referenced (how : Attachment) (namespace : string)
    (pods : list Pod) (pod : Pod) (x : string) :
  how ≠ ByInitEnvFrom → pod ∈ pods → references how pod x →
  referenced (usedOf namespace pods) x.
Proof.
  intros Hhow Hpod Href. unfold usedOf. apply referenced_app_used. left.
  apply referenced_concat_used. exists pod. split; [done|].
  unfold podRefs. rewrite !referenced_app_used, !referenced_concat_used.
  destruct how; simpl in Href; [| | | | |done].
  - destruct Href as (v & cm & Hv & Hcm & <-). left. exists v. split; [done|].
    unfold referenced, volumeRefs; simpl. rewrite Hcm. left.
    apply list_elem_of_singleton. reflexivity.
  - destruct Href as (v & p & src & Hv & Hp & Hsrc & Hx). left.
    exists v. split; [done|].
    unfold referenced, volumeRefs; simpl. rewrite Hp. right; left.
    apply list_elem_of_omap. eauto.
  - destruct Href as (c & e & Hc & He & Hx). right; left.
    exists c. split; [done|].
    unfold referenced, containerRefs; simpl. right; right; left.
    apply list_elem_of_omap. eauto.
  - destruct Href as (c & e & Hc & He & Hx). right; left.
    exists c. split; [done|].
    unfold referenced, containerRefs; simpl. right; right; right; left.
    apply list_elem_of_omap. eauto.
  - destruct Href as (c & e & Hc & He & Hx). right; right.
    exists c. split; [done|].
    unfold referenced, initContainerRefs; simpl. do 5 right.
    apply list_elem_of_omap. eauto.
Qed.

(** X10: a config map that a pod names through a volume, a projected volume,
    an environment variable of a container or of an init container, or an
    [envFrom] entry of a container is not in the unused set, however often
    it is named. *)
Lemma referenced_not_unused (how : Attachment) (clientset : Clientset)
    (namespace : string) (filterOpts : FilterOptions) (pods : list Pod)
    (pod : Pod) (x : string) (diff : list string) :
  how ≠ ByInitEnvFrom →
  Pods_List clientset namespace = inr pods → pod ∈ pods →
  references how pod x →
  processNamespaceCM clientset namespace filterOpts = inr diff →
  x ∉ diff.
Proof.
  intros Hhow Hpods Hpod Href Hdiff Hx.
  destruct (elem_of_unused _ _ _ _ Hdiff) as (pods' & cms & Hp & Hc & Hiff).
  rewrite Hpods in Hp. simplify_eq.
  destruct (proj1 (Hiff x) Hx) as [_ Hnot]. apply Hnot.
  by eapply references_referenced.
Qed.

(** C1 (the code fails the claim): a pod whose init container imports the
    config map [cm-x] with an [envFrom] entry references it, and the unused
    set of the namespace is [cm-x] all the same: the extractor walks the
    [EnvFrom] of the containers and not that of the init containers. *)
Theorem init_container_envFrom_reported_unused (filterOpts : FilterOptions) :
  kept filterOpts (Scenario.cm "cm-x") = true →
  references ByInitEnvFrom Scenario.initEnvFromPod "cm-x"
  ∧ Pods_List Scenario.initEnvFromCluster "ns1" = inr [Scenario.initEnvFromPod]
  ∧ processNamespaceCM Scenario.initEnvFromCluster "ns1" filterOpts
    = inr ["cm-x"].
Proof.
  intros Hkept. split_and!.
  - simpl. eexists _, _. split_and!; [apply list_elem_of_singleton; reflexivity..|done].
  - done.
  - rewrite processNamespaceCM_eq. simpl. unfold candidates.
    rewrite filter_cons, decide_True by done. reflexivity.
Qed.

(** C2: [kube-root-ca.crt] is in the unused set of no namespace, and
    [aws-auth] is not in the unused set of [kube-system], whatever the pods
    and the config maps of the namespace are. *)
Theorem exempted_never_unused (clientset : Clientset) (namespace : string)
    (filterOpts : FilterOptions) (diff : list string) :
  processNamespaceCM clientset namespace filterOpts = inr diff →
  ("kube-root-ca.crt" ∉ diff)
  ∧ (namespace = "kube-system" → "aws-auth" ∉ diff).
Proof.
  intros Hdiff.
  destruct (elem_of_unused _ _ _ _ Hdiff) as (pods & cms & Hp & Hc & Hiff).
  split.
  - intros Hx. destruct (proj1 (Hiff _) Hx) as [_ Hnot]. apply Hnot.
    apply (exception_referenced namespace pods
             {| ResourceName := "kube-root-ca.crt"; Namespace := "*" |}).
    + unfold exceptionconfigmaps. repeat constructor.
    + by right.
  - intros Hns Hx. destruct (proj1 (Hiff _) Hx) as [_ Hnot]. apply Hnot.
    rewrite Hns.
    apply (exception_referenced "kube-system" pods
             {| ResourceName := "aws-auth"; Namespace := "kube-system" |}).
    + unfold exceptionconfigmaps. repeat constructor.
    + by left.
Qed.

(** C5: the unused set of a namespace is in ascending lexicographic order
    and holds no name twice. *)
Theorem unused_sorted_nodup (clientset : Clientset) (namespace : string)
    (filterOpts : FilterOptions) (diff : list string) :
  processNamespaceCM clientset namespace filterOpts = inr diff →
  StronglySorted String.le diff ∧ NoDup diff.
Proof.
  rewrite processNamespaceCM_eq.
  destruct (Pods_List _ _) as [err|pods]; [done|].
  destruct (ConfigMaps_List _ _) as [err|cms]; [done|].
  intros [= <-]. unfold CalculateResourceDifference. split.
  - apply RemoveDuplicatesAndSort_sorted.
  - apply RemoveDuplicatesAndSort_NoDup.
Qed.

Lemma marked_not_kept (filterOpts : FilterOptions) (configmap : ConfigMap) :
  ConfigMap_Labels configmap !! "kor/used" = Some "true" →
  kept filterOpts configmap = false.
Proof.
  intros Hlabel. unfold kept, mapIndex. rewrite Hlabel.
  apply andb_false_iff. right. reflexivity.
Qed.

Lemma same_name_same_configmap (configmaps : list ConfigMap) (a b : ConfigMap) :
  NoDup (ConfigMap_Name <$> configmaps) → a ∈ configmaps → b ∈ configmaps →
  ConfigMap_Name a = ConfigMap_Name b → a = b.
Proof.
  induction configmaps as [|c cms IH]; intros Hnd Ha Hb Hname.
  - by apply elem_of_nil in Ha.
  - rewrite fmap_cons in Hnd. apply NoDup_cons in Hnd as [Hc Hnd].
    apply elem_of_cons in Ha as [->|Ha], Hb as [->|Hb]; [done| | |by apply IH].
    + exfalso. apply Hc. rewrite Hname. by apply list_elem_of_fmap_2.
    + exfalso. apply Hc. rewrite <- Hname. by apply list_elem_of_fmap_2.
Qed.

(** C6: a config map of the listing that carries the label [kor/used] with
    the value [true] is not in the unused set of its namespace, whether a pod
    references it or not. The names of a listing are those of distinct
    objects of one namespace, hence distinct. *)
Theorem marked_used_never_unused (clientset : Clientset) (namespace : string)
    (filterOpts : FilterOptions) (configmaps : list ConfigMap)
    (configmap : ConfigMap) (diff : list string) :
  ConfigMaps_List clientset namespace = inr configmaps →
  NoDup (ConfigMap_Name <$> configmaps) →
  configmap ∈ configmaps →
  ConfigMap_Labels configmap !! "kor/used" = Some "true" →
  processNamespaceCM clientset namespace filterOpts = inr diff →
  ConfigMap_Name configmap ∉ diff.
Proof.
  intros Hlist Hnd Hin Hlabel Hdiff Hx.
  destruct (elem_of_unused _ _ _ _ Hdiff) as (pods & cms & Hp & Hc & Hiff).
  rewrite Hlist in Hc. simplify_eq.
  destruct (proj1 (Hiff _) Hx) as [Hcand _].
  unfold candidates in Hcand.
  apply list_elem_of_fmap in Hcand as (other & Hname & Hother).
  apply list_elem_of_filter in Hother as [Hkept Hother].
  assert (configmap = other) as -> by by eapply same_name_same_configmap.
  rewrite (marked_not_kept _ _ Hlabel) in Hkept. done.
Qed.

Lemma envFromContainerCM_concat_used {A : Type} (f : A → UsedCM) (xs : list A) :
  (∀ a, envFromContainerCM (f a) = []) →
  envFromContainerCM (concat_used f xs) = [].
Proof.
  intros Hf. induction xs as [|a xs IH]; simpl; [done|]. by rewrite Hf, IH.
Qed.

Lemma envFromContainerCM_collapsed (namespace : string) (pods : list Pod) :
  envFromContainerCM (usedOf_collapsed namespace pods) = [].
Proof.
  unfold usedOf_collapsed.
  change (envFromContainerCM (concat_used podRefs_collapsed pods)
          ++ envFromContainerCM
               (concat_used (exceptionRefs namespace) exceptionconfigmaps) = []).
  rewrite (envFromContainerCM_concat_used (exceptionRefs namespace)) by done.
  rewrite (envFromContainerCM_concat_used podRefs_collapsed); [done|].
  intros pod. unfold podRefs_collapsed; simpl.
  by rewrite !envFromContainerCM_concat_used.
Qed.

(** C8: the engine with one container-level [envFrom] sequence returns, on
    every cluster, namespace and filter, what the engine with the two
    sequences returns: the same unused set, or the same error. *)
Theorem collapsed_envFrom_same_unused (clientset : Clientset)
    (namespace : string) (filterOpts : FilterOptions) :
  processNamespaceCM_collapsed clientset namespace filterOpts
  = processNamespaceCM clientset namespace filterOpts.
Proof.
  rewrite processNamespaceCM_collapsed_eq, processNamespaceCM_eq.
  destruct (Pods_List _ _) as [err|pods]; [done|].
  destruct (ConfigMaps_List _ _) as [err|cms]; [done|].
  cbv zeta. f_equal. apply CalculateResourceDifference_ext. intros x.
  rewrite elem_of_joined, <- referenced_collapsed.
  unfold referenced. rewrite envFromContainerCM_collapsed.
  rewrite !elem_of_app, !elem_of_RemoveDuplicatesAndSort, elem_of_nil. tauto.
Qed.

(** C9: the name of a volume mount of an init container, when neither the
    name nor the mount path is empty, is among the volume names that the
    extractor returns, and so it is in no unused set of the namespace, even
    though a volume mount names a volume and not a config map. *)
Theorem init_volume_mount_counts_as_used (clientset : Clientset)
    (namespace : string) (pods : list Pod) (pod : Pod)
    (initContainer : Container) (volume : VolumeMount) :
  Pods_List clientset namespace = inr pods →
  pod ∈ pods →
  initContainer ∈ PodSpec_InitContainers (Pod_Spec pod) →
  volume ∈ Container_VolumeMounts initContainer →
  VolumeMount_Name volume ≠ "" →
  VolumeMount_MountPath volume ≠ "" →
  (∃ u, retrieveUsedCM clientset namespace = inr u
        ∧ VolumeMount_Name volume ∈ volumesCM u)
  ∧ (∀ filterOpts diff,
       processNamespaceCM clientset namespace filterOpts = inr diff →
       VolumeMount_Name volume ∉ diff).
Proof.
  intros Hpods Hpod Hinit Hvol Hname Hpath.
  assert (VolumeMount_Name volume ∈ volumesCM (usedOf namespace pods)) as Hused.
  { unfold usedOf; simpl. apply elem_of_app; left.
    apply volumesCM_concat_used. exists pod. split; [done|].
    unfold podRefs; simpl. apply elem_of_app; right.
    apply elem_of_app; right.
    apply volumesCM_concat_used. exists initContainer. split; [done|].
    unfold initContainerRefs; simpl.
    apply list_elem_of_fmap_2, list_elem_of_filter. by split. }
  split.
  - exists (usedOf namespace pods). split; [|done].
    by rewrite retrieveUsedCM_eq, Hpods.
  - intros filterOpts diff Hdiff Hx.
    destruct (elem_of_unused _ _ _ _ Hdiff) as (pods' & cms & Hp & Hc & Hiff).
    rewrite Hpods in Hp. simplify_eq.
    destruct (proj1 (Hiff _) Hx) as [_ Hnot]. apply Hnot. by left.
Qed.
End kor_facts.

(** ** The loop over the namespaces *)

Lemma snoc_split {A : Type} (xs pre post : list A) (x y : A) :
  xs ++ [x] = pre ++ y :: post →
  (post = [] ∧ pre = xs ∧ y = x)
  ∨ ∃ post', post = post' ++ [x] ∧ xs = pre ++ y :: post'.
Proof.
  destruct post as [|z post _] using rev_ind; intros Heq.
  - left. apply app_inj_tail in Heq as [-> ->]. done.
  - right. exists post.
    change (xs ++ [x] = pre ++ (y :: post) ++ [z]) in Heq.
    rewrite app_assoc in Heq. apply app_inj_tail in Heq as [-> ->]. done.
Qed.

Section kor_run.
Context {FilterOptions ExcludeLabelsT IncludeExcludeLists : Type}.
Variable ExcludeLabels : FilterOptions → ExcludeLabelsT.
Variable HasExcludedLabel :
  gmap string string → ExcludeLabelsT → bool * option error.
Variable HasIncludedAge : Time → FilterOptions → bool * option error.
Variable SetNamespaceList : IncludeExcludeLists → Clientset → list string.
Variable DeleteResource :
  list string → Clientset → string → string → bool →
  (list string * option error) * Clientset.
Variable FormatOutput : string → list string → string → string.
Variable unusedResourceFormatter :
  string → string → Opts → string → string * option error.
Variable encodeString : string → string.

Local Abbreviation processNamespaceCM :=
  (processNamespaceCM ExcludeLabels HasExcludedLabel HasIncludedAge).
Local Abbreviation succeeds :=
  (succeeds ExcludeLabels HasExcludedLabel HasIncludedAge).
Local Abbreviation recorded :=
  (recorded ExcludeLabels HasExcludedLabel HasIncludedAge DeleteResource).
Local Abbreviation residual := (residual DeleteResource).
Local Abbreviation finalRun :=
  (finalRun ExcludeLabels HasExcludedLabel HasIncludedAge SetNamespaceList
     DeleteResource FormatOutput).
Local Abbreviation namespaceStep :=
  (namespaceStep ExcludeLabels HasExcludedLabel HasIncludedAge DeleteResource
     FormatOutput).
Local Abbreviation runNamespaces :=
  (runNamespaces ExcludeLabels HasExcludedLabel HasIncludedAge DeleteResource
     FormatOutput).
Local Abbreviation GetUnusedConfigmaps :=
  (GetUnusedConfigmaps ExcludeLabels HasExcludedLabel HasIncludedAge
     SetNamespaceList DeleteResource FormatOutput unusedResourceFormatter
     encodeString).

Variable filterOpts : FilterOptions.
Variable opts : Opts.

Lemma recorded_is_Some (clientset : Clientset) (namespace : string) :
  is_Some (recorded filterOpts opts clientset namespace)
  ↔ succeeds filterOpts clientset namespace.
Proof.
  unfold recorded, succeeds.
  destruct (processNamespaceCM _ _ _) as [err|diff].
  - split; [by intros [? ?] | by intros [? ?]].
  - split; eauto.
Qed.

Lemma namespaceStep_response (r : Run) (namespace : string) :
  response (namespaceStep filterOpts opts r namespace)
  = match recorded filterOpts opts (cluster r) namespace with
    | Some l => <[namespace := {["ConfigMap" := l]}]> (response r)
    | None => response r
    end.
Proof.
  unfold namespaceStep, recorded.
  destruct (processNamespaceCM _ _ _) as [err|diff]; [done|].
  destruct (DeleteFlag opts); [|by rewrite insert_empty].
  destruct (DeleteResource _ _ _ _ _) as [[residual [err|]] clientset];
    simpl; by rewrite insert_empty.
Qed.

(** A namespace that fails leaves the buffer, the response and the cluster
    as they were; only a line on the error stream is added. *)
Lemma namespaceStep_failed (r : Run) (namespace : string) (err : error) :
  processNamespaceCM (cluster r) namespace filterOpts = inl err →
  namespaceStep filterOpts opts r namespace
  = {| outputBuffer := outputBuffer r;
       response := response r;
       stderr := stderr r ++
         ["Failed to process namespace " +:+ namespace +:+ ": " +:+ err +:+ LF];
       cluster := cluster r |}.
Proof. intros Herr. unfold namespaceStep. by rewrite Herr. Qed.

Lemma runNamespaces_snoc (namespaces : list string) (namespace : string) (r : Run) :
  runNamespaces filterOpts opts (namespaces ++ [namespace]) r
  = namespaceStep filterOpts opts (runNamespaces filterOpts opts namespaces r)
      namespace.
Proof. unfold runNamespaces. by rewrite forRange_app. Qed.

Lemma runNamespaces_app (pre post : list string) (r : Run) :
  runNamespaces filterOpts opts (pre ++ post) r
  = runNamespaces filterOpts opts post (runNamespaces filterOpts opts pre r).
Proof. unfold runNamespaces. by rewrite forRange_app. Qed.

(** The namespaces with an entry after the loop: those that had one before
    and those that were processed successfully at one of their turns. *)
Lemma response_runNamespaces_is_Some (namespaces : list string) (r : Run)
    (namespace : string) :
  is_Some (response (runNamespaces filterOpts opts namespaces r) !! namespace)
  ↔ is_Some (response r !! namespace)
    ∨ ∃ pre post,
        namespaces = pre ++ namespace :: post
        ∧ succeeds filterOpts
            (cluster (runNamespaces filterOpts opts pre r)) namespace.
Proof.
  induction namespaces as [|n nss IH] using rev_ind.
  - split; [by left|]. intros [H|(pre & post & Heq & _)]; [done|].
    by destruct pre.
  - rewrite runNamespaces_snoc, namespaceStep_response.
    pose proof (recorded_is_Some
                  (cluster (runNamespaces filterOpts opts nss r)) n) as Hrec.
    destruct (recorded _ _ _ n) as [l|].
    + split.
      * destruct (decide (n = namespace)) as [->|Hne].
        { intros _. right. exists nss, []. split; [done|].
          apply Hrec. eauto. }
        rewrite lookup_insert_ne by done.
        intros [H|(pre & post & -> & Hs)]%IH; [by left|].
        right. exists pre, (post ++ [n]). split; [|done].
        by rewrite <- app_assoc.
      * intros H. destruct (decide (n = namespace)) as [->|Hne].
        { rewrite lookup_insert_eq. eauto. }
        rewrite lookup_insert_ne by done. apply IH.
        destruct H as [H|(pre & post & Heq & Hs)]; [by left|].
        apply snoc_split in Heq as [(_ & _ & ->)|(post' & _ & ->)]; [done|].
        right. eauto.
    + rewrite IH. split.
      * intros [H|(pre & post & -> & Hs)]; [by left|].
        right. exists pre, (post ++ [n]). split; [|done].
        by rewrite <- app_assoc.
      * intros [H|(pre & post & Heq & Hs)]; [by left|].
        apply snoc_split in Heq as [(_ & -> & ->)|(post' & _ & ->)].
        { apply Hrec in Hs. by destruct Hs. }
        right. eauto.
Qed.

(** Without the delete flag the loop leaves the cluster as it is. *)
Lemma cluster_runNamespaces (namespaces : list string) (r : Run) :
  DeleteFlag opts = false →
  cluster (runNamespaces filterOpts opts namespaces r) = cluster r.
Proof.
  intros Hflag. revert r. induction namespaces as [|n nss IH]; intros r; [done|].
  unfold runNamespaces in *. rewrite forRange_cons, IH.
  unfold namespaceStep. rewrite Hflag.
  by destruct (processNamespaceCM _ _ _).
Qed.

(** C3: after the loop, the response has an entry for a namespace exactly
    when, at one of its turns in the list, the listing of its pods and the
    listing of its config maps both succeeded: a namespace for which one of
    them fails adds nothing, and a failure before or after a namespace does
    not keep it from being processed and recorded. *)
Theorem failed_namespace_contributes_nothing (clientset : Clientset)
    (namespaces : list string) (namespace : string) :
  is_Some (response (runNamespaces filterOpts opts namespaces
                       (startRun clientset)) !! namespace)
  ↔ ∃ pre post pods configmaps,
      namespaces = pre ++ namespace :: post
      ∧ Pods_List
          (cluster (runNamespaces filterOpts opts pre (startRun clientset)))
          namespace = inr pods
      ∧ ConfigMaps_List
          (cluster (runNamespaces filterOpts opts pre (startRun clientset)))
          namespace = inr configmaps.
Proof.
  rewrite response_runNamespaces_is_Some. split.
  - intros [H|(pre & post & -> & Hs)].
    { simpl in H. rewrite lookup_empty in H. by destruct H. }
    apply succeeds_iff in Hs as [[pods Hp] [cms Hc]].
    exists pre, post, pods, cms. done.
  - intros (pre & post & pods & cms & -> & Hp & Hc).
    right. exists pre, post. split; [done|].
    apply succeeds_iff. eauto.
Qed.

Lemma response_runNamespaces_other (post : list string) (r : Run)
    (namespace : string) :
  namespace ∉ post →
  response (runNamespaces filterOpts opts post r) !! namespace
  = response r !! namespace.
Proof.
  revert r. induction post as [|n post IH]; intros r Hnotin; [done|].
  apply not_elem_of_cons in Hnotin as [Hne Hnotin].
  unfold runNamespaces in *. rewrite forRange_cons, IH by done.
  rewrite namespaceStep_response.
  destruct (recorded _ _ _ n); [|done]. by rewrite lookup_insert_ne.
Qed.

(** C4: the entry of a namespace holds, under the key [ConfigMap], what the
    deletion executor returned for the unused set when the delete flag is
    set (so the empty list when the executor reports that nothing is left)
    and the unused set itself when the flag is not set. *)
Theorem response_records_residual (pre post : list string) (namespace : string)
    (r : Run) (diff : list string) :
  processNamespaceCM (cluster (runNamespaces filterOpts opts pre r)) namespace
    filterOpts = inr diff →
  namespace ∉ post →
  (DeleteFlag opts = true →
   response (runNamespaces filterOpts opts (pre ++ namespace :: post) r)
     !! namespace
   = Some {["ConfigMap" :=
              residual opts (cluster (runNamespaces filterOpts opts pre r))
                namespace diff]})
  ∧ (DeleteFlag opts = true →
     residual opts (cluster (runNamespaces filterOpts opts pre r))
       namespace diff = [] →
     response (runNamespaces filterOpts opts (pre ++ namespace :: post) r)
       !! namespace
     = Some {["ConfigMap" := []]})
  ∧ (DeleteFlag opts = false →
     response (runNamespaces filterOpts opts (pre ++ namespace :: post) r)
       !! namespace
     = Some {["ConfigMap" := diff]}).
Proof.
  intros Hdiff Hpost.
  assert (response (runNamespaces filterOpts opts (pre ++ namespace :: post) r)
            !! namespace
          = recorded filterOpts opts
              (cluster (runNamespaces filterOpts opts pre r)) namespace
              ≫= λ l, Some {["ConfigMap" := l]}) as Hentry.
  { rewrite runNamespaces_app.
    change (namespace :: post) with ([namespace] ++ post).
    rewrite runNamespaces_app, response_runNamespaces_other by done.
    change (runNamespaces filterOpts opts [namespace] ?s)
      with (namespaceStep filterOpts opts s namespace).
    rewrite namespaceStep_response.
    destruct (recorded _ _ _ _) as [l|] eqn:Hrec; simpl.
    - by rewrite lookup_insert_eq.
    - unfold recorded in Hrec. by rewrite Hdiff in Hrec. }
  rewrite Hentry. unfold recorded, residual. rewrite Hdiff.
  split_and!.
  - by intros ->.
  - by intros -> ->.
  - by intros ->.
Qed.

(** Every entry of the response after the loop was recorded at a turn of
    its namespace, under the key [ConfigMap] alone. *)
Lemma response_runNamespaces_recorded (namespaces : list string) (r : Run)
    (namespace : string) (m : gmap string (list string)) :
  response (runNamespaces filterOpts opts namespaces r) !! namespace = Some m →
  response r !! namespace = Some m
  ∨ ∃ pre post l,
      namespaces = pre ++ namespace :: post
      ∧ recorded filterOpts opts
          (cluster (runNamespaces filterOpts opts pre r)) namespace = Some l
      ∧ m = {["ConfigMap" := l]}.
Proof.
  revert m. induction namespaces as [|n nss IH] using rev_ind; intros m.
  - by left.
  - rewrite runNamespaces_snoc, namespaceStep_response.
    assert (response (runNamespaces filterOpts opts nss r) !! namespace = Some m →
            response r !! namespace = Some m
            ∨ ∃ pre post l,
                nss ++ [n] = pre ++ namespace :: post
                ∧ recorded filterOpts opts
                    (cluster (runNamespaces filterOpts opts pre r)) namespace
                  = Some l
                ∧ m = {["ConfigMap" := l]}) as Hold.
    { intros [H|(pre & post & l & -> & Hl & ->)]%IH; [by left|].
      right. exists pre, (post ++ [n]), l. split_and!; [|done..].
      by rewrite <- app_assoc. }
    destruct (recorded _ _ _ n) as [l|] eqn:Hrec; [|done].
    destruct (decide (n = namespace)) as [->|Hne].
    + rewrite lookup_insert_eq. intros [= <-].
      right. exists nss, [], l. done.
    + by rewrite lookup_insert_ne.
Qed.

Lemma encodeArray_document (names : list string) :
  encodeArray encodeString "" "  " 2 names = documentArray encodeString names.
Proof. destruct names; reflexivity. Qed.

Lemma encodeObject_resourceMap (names : list string) :
  encodeObject encodeString "" "  " (encodeArray encodeString "" "  ") 1
    {["ConfigMap" := names]}
  = "{" +:+ (LF +:+ "    " +:+ encodeString "ConfigMap" +:+ ": "
                +:+ documentArray encodeString names) +:+ LF +:+ "  }".
Proof.
  unfold encodeObject, sortedMembers. rewrite map_to_list_singleton.
  cbn [merge_sort merge_sort_aux merge_list_to_stack merge_stack].
  rewrite list_merge_nil_r. cbn [fmap list_fmap fst snd].
  rewrite encodeArray_document. reflexivity.
Qed.

Lemma elem_of_sortedMembers {V : Type} (m : gmap string V) (kv : string * V) :
  kv ∈ sortedMembers m ↔ m !! kv.1 = Some kv.2.
Proof.
  unfold sortedMembers. rewrite merge_sort_Permutation.
  destruct kv as [k v]. apply elem_of_map_to_list.
Qed.

(** On a response whose entries hold the key [ConfigMap] alone, the encoder
    writes the document of the spec. *)
Lemma MarshalIndent_document (v : gmap string (gmap string (list string))) :
  (∀ namespace m, v !! namespace = Some m → ∃ l, m = {["ConfigMap" := l]}) →
  MarshalIndent encodeString "" "  " v
  = inr (document encodeString (entriesOf v)).
Proof.
  intros Hshape. unfold MarshalIndent. f_equal.
  unfold encodeObject at 1, document, entriesOf.
  assert (∀ kv, kv ∈ sortedMembers v → ∃ l, kv.2 = {["ConfigMap" := l]}) as Hm.
  { intros kv Hkv%elem_of_sortedMembers. eauto. }
  revert Hm. generalize (sortedMembers v). intros members Hm.
  assert ((λ kv : string * gmap string (list string),
             newline "" "  " 1 +:+ encodeString kv.1 +:+ ": "
               +:+ encodeObject encodeString "" "  "
                     (encodeArray encodeString "" "  ") 1 kv.2) <$> members
          = documentEntry encodeString
              <$> ((λ kv : string * gmap string (list string),
                      (kv.1, default [] (kv.2 !! "ConfigMap"))) <$> members))
    as Hlist.
  { rewrite <- list_fmap_compose. apply list_fmap_ext. intros i kv Hkv.
    destruct (Hm kv) as [l Hl]; [by eapply list_elem_of_lookup_2|].
    destruct kv as [k m]. simpl in *. subst m.
    rewrite encodeObject_resourceMap, lookup_singleton_eq. reflexivity. }
  destruct members as [|kv members]; [reflexivity|].
  rewrite Hlist. reflexivity.
Qed.



Lemma finalRun_shape (includeExcludeLists : IncludeExcludeLists)
    (clientset : Clientset) (namespace : string) (m : gmap string (list string)) :
  response (finalRun includeExcludeLists filterOpts clientset opts) !! namespace
    = Some m →
  ∃ pre post l,
    SetNamespaceList includeExcludeLists clientset = pre ++ namespace :: post
    ∧ recorded filterOpts opts
        (cluster (runNamespaces filterOpts opts pre (startRun clientset)))
        namespace = Some l
    ∧ m = {["ConfigMap" := l]}.
Proof.
  unfold finalRun. intros [H|H]%response_runNamespaces_recorded; [|done].
  simpl in H. by rewrite lookup_empty in H.
Qed.

Lemma GetUnusedConfigmaps_returned (includeExcludeLists : IncludeExcludeLists)
    (clientset : Clientset) (outputFormat : string) :
  returned (GetUnusedConfigmaps includeExcludeLists filterOpts clientset
              outputFormat opts)
  = ((unusedResourceFormatter outputFormat
        (outputBuffer (finalRun includeExcludeLists filterOpts clientset opts))
        opts
        (document encodeString
           (entriesOf
              (response
                 (finalRun includeExcludeLists filterOpts clientset opts))))).1,
     None).
Proof.
  unfold GetUnusedConfigmaps. fold (finalRun includeExcludeLists filterOpts clientset opts).
  rewrite MarshalIndent_document.
  - by destruct (unusedResourceFormatter _ _ _ _).
  - intros ns m (pre & post & l & _ & _ & ->)%finalRun_shape. eauto.
Qed.


(** C10: when the formatter returns an error, [GetUnusedConfigmaps] prints
    it and returns the string of the formatter with a nil error. *)
Theorem formatter_error_not_propagated
    (includeExcludeLists : IncludeExcludeLists) (clientset : Clientset)
    (outputFormat jsonResponse unusedCMs : string) (err : error) :
  MarshalIndent encodeString "" "  "
    (response (finalRun includeExcludeLists filterOpts clientset opts))
    = inr jsonResponse →
  unusedResourceFormatter outputFormat
    (outputBuffer (finalRun includeExcludeLists filterOpts clientset opts))
    opts jsonResponse = (unusedCMs, Some err) →
  returned (GetUnusedConfigmaps includeExcludeLists filterOpts clientset
              outputFormat opts) = (unusedCMs, None)
  ∧ printedOut (GetUnusedConfigmaps includeExcludeLists filterOpts clientset
                  outputFormat opts) = ["err: " +:+ err +:+ LF].
Proof.
  intros Hjson Hformat. unfold GetUnusedConfigmaps.
  fold (finalRun includeExcludeLists filterOpts clientset opts).
  rewrite Hjson, Hformat. done.
Qed.
End kor_run.

(** ** The theorems on the concrete clusters *)

Local Abbreviation processScenario :=
  (processNamespaceCM Scenario.excludeLabels Scenario.noExcludedLabel
     Scenario.anyAge).

Local Abbreviation runScenario :=
  (runNamespaces Scenario.excludeLabels Scenario.noExcludedLabel Scenario.anyAge
     Scenario.deleteAll Scenario.formatOutput tt).

Lemma init_container_envFrom_reported_unused_witness :
  kept Scenario.excludeLabels Scenario.noExcludedLabel Scenario.anyAge tt
    (Scenario.cm "cm-x") = true
  ∧ references ByInitEnvFrom Scenario.initEnvFromPod "cm-x"
  ∧ Pods_List Scenario.initEnvFromCluster "ns1" = inr [Scenario.initEnvFromPod]
  ∧ processScenario Scenario.initEnvFromCluster "ns1" tt = inr ["cm-x"].
Proof.
  split; [reflexivity|].
  apply (init_container_envFrom_reported_unused Scenario.excludeLabels
           Scenario.noExcludedLabel Scenario.anyAge tt).
  reflexivity.
Defined.

Lemma exempted_never_unused_witness :
  processScenario Scenario.systemCluster "kube-system" tt = inr ["coredns"]
  ∧ ("kube-root-ca.crt" ∉ ["coredns"])
  ∧ ("kube-system" = "kube-system" → "aws-auth" ∉ ["coredns"]).
Proof.
  split; [vm_compute; reflexivity|].
  apply (exempted_never_unused Scenario.excludeLabels Scenario.noExcludedLabel
           Scenario.anyAge Scenario.systemCluster "kube-system" tt ["coredns"]).
  vm_compute; reflexivity.
Defined.

Lemma unused_sorted_nodup_witness :
  processScenario Scenario.unorderedCluster "ns1" tt = inr ["alpha"; "mid"; "zeta"]
  ∧ StronglySorted String.le ["alpha"; "mid"; "zeta"]
  ∧ NoDup ["alpha"; "mid"; "zeta"].
Proof.
  split; [vm_compute; reflexivity|].
  apply (unused_sorted_nodup Scenario.excludeLabels Scenario.noExcludedLabel
           Scenario.anyAge Scenario.unorderedCluster "ns1" tt).
  vm_compute; reflexivity.
Defined.

Lemma marked_used_never_unused_witness :
  processScenario Scenario.markedCluster "ns1" tt = inr ["stale"]
  ∧ ConfigMap_Name (Scenario.cmUsed "keep-me") ∉ ["stale"].
Proof.
  split; [vm_compute; reflexivity|].
  apply (marked_used_never_unused Scenario.excludeLabels Scenario.noExcludedLabel
           Scenario.anyAge Scenario.markedCluster "ns1" tt
           [Scenario.cmUsed "keep-me"; Scenario.cm "stale"]).
  - reflexivity.
  - apply (bool_decide_unpack _). vm_compute. exact I.
  - apply list_elem_of_here.
  - vm_compute; reflexivity.
  - vm_compute; reflexivity.
Defined.

Lemma init_volume_mount_counts_as_used_witness :
  (∃ u, retrieveUsedCM Scenario.initMountCluster "ns1" = inr u
        ∧ "scratch" ∈ volumesCM u)
  ∧ processScenario Scenario.initMountCluster "ns1" tt = inr ["other"]
  ∧ "scratch" ∉ ["other"].
Proof.
  destruct (init_volume_mount_counts_as_used Scenario.excludeLabels
              Scenario.noExcludedLabel Scenario.anyAge
              Scenario.initMountCluster "ns1" [Scenario.initMountPod]
              Scenario.initMountPod
              (Scenario.container [] [] [Scenario.scratchMount])
              Scenario.scratchMount) as [Hused Hunused].
  - reflexivity.
  - apply list_elem_of_here.
  - apply list_elem_of_here.
  - apply list_elem_of_here.
  - apply (bool_decide_unpack _). vm_compute. exact I.
  - apply (bool_decide_unpack _). vm_compute. exact I.
  - split; [exact Hused|].
    split; [vm_compute; reflexivity|].
    apply (Hunused tt ["other"]). vm_compute; reflexivity.
Defined.

(** The scenario of the spec: when every deletion succeeds the response
    records the empty list for [ns1], and without the delete flag it records
    [cm-b]. *)
Lemma response_records_residual_witness :
  processScenario Scenario.cluster "ns1" tt = inr ["cm-b"]
  ∧ response (runScenario Scenario.deleteUnused ["ns1"; "ns2"]
                (startRun Scenario.cluster)) !! "ns1"
    = Some {["ConfigMap" := []]}
  ∧ response (runScenario Scenario.keepAll ["ns1"; "ns2"]
                (startRun Scenario.cluster)) !! "ns1"
    = Some {["ConfigMap" := ["cm-b"]]}.
Proof.
  split; [vm_compute; reflexivity|]. split.
  - destruct (response_records_residual Scenario.excludeLabels
                Scenario.noExcludedLabel Scenario.anyAge Scenario.deleteAll
                Scenario.formatOutput tt Scenario.deleteUnused
                [] ["ns2"] "ns1" (startRun Scenario.cluster) ["cm-b"])
      as (_ & Hempty & _).
    + vm_compute; reflexivity.
    + apply (bool_decide_unpack _). vm_compute. exact I.
    + apply Hempty; reflexivity.
  - destruct (response_records_residual Scenario.excludeLabels
                Scenario.noExcludedLabel Scenario.anyAge Scenario.deleteAll
                Scenario.formatOutput tt Scenario.keepAll
                [] ["ns2"] "ns1" (startRun Scenario.cluster) ["cm-b"])
      as (_ & _ & Hkept).
    + vm_compute; reflexivity.
    + apply (bool_decide_unpack _). vm_compute. exact I.
    + apply Hkept; reflexivity.
Defined.

Lemma formatter_error_not_propagated_witness :
  returned
    (GetUnusedConfigmaps Scenario.excludeLabels Scenario.noExcludedLabel
       Scenario.anyAge (Scenario.namespaceList ["ns1"]) Scenario.deleteAll
       Scenario.formatOutput Scenario.brokenFormatter Scenario.quote
       tt tt Scenario.cluster "yaml" Scenario.keepAll)
  = ("", None)
  ∧ printedOut
      (GetUnusedConfigmaps Scenario.excludeLabels Scenario.noExcludedLabel
         Scenario.anyAge (Scenario.namespaceList ["ns1"]) Scenario.deleteAll
         Scenario.formatOutput Scenario.brokenFormatter Scenario.quote
         tt tt Scenario.cluster "yaml" Scenario.keepAll)
    = ["err: unsupported output format" +:+ LF].
Proof.
  eapply (formatter_error_not_propagated Scenario.excludeLabels
            Scenario.noExcludedLabel Scenario.anyAge
            (Scenario.namespaceList ["ns1"]) Scenario.deleteAll
            Scenario.formatOutput Scenario.brokenFormatter Scenario.quote
            tt Scenario.keepAll tt Scenario.cluster "yaml").
  - reflexivity.
  - reflexivity.
Defined.

(** The namespace [broken] between two others: it has no entry, the two
    others have theirs, and the error stream has one line. *)
Example broken_namespace_skipped :
  let r := runScenario Scenario.keepAll ["ns1"; "broken"; "ns2"]
             (startRun Scenario.cluster) in
  response r !! "broken" = None
  ∧ response r !! "ns1" = Some {["ConfigMap" := ["cm-b"]]}
  ∧ response r !! "ns2" = Some {["ConfigMap" := ["cm-b"]]}
  ∧ stderr r
    = ["Failed to process namespace broken: the server is unavailable" +:+ LF].
Proof. vm_compute. done. Qed.

(** The document for the scenario of the spec, as the formatter gets it. *)
Example scenario_document :
  returned
    (GetUnusedConfigmaps Scenario.excludeLabels Scenario.noExcludedLabel
       Scenario.anyAge (Scenario.namespaceList ["ns1"; "broken"]) Scenario.deleteAll
       Scenario.formatOutput Scenario.formatter Scenario.quote
       tt tt Scenario.cluster "json" Scenario.keepAll)
  = ("{" +:+ LF
       +:+ "  " +:+ Scenario.quote "ns1" +:+ ": {" +:+ LF
       +:+ "    " +:+ Scenario.quote "ConfigMap" +:+ ": [" +:+ LF
       +:+ "      " +:+ Scenario.quote "cm-b" +:+ LF
       +:+ "    ]" +:+ LF
       +:+ "  }" +:+ LF
       +:+ "}",
     None).
Proof. vm_compute. reflexivity. Qed.

(** ** More about the extractor *)

Lemma elem_of_proj_concat_used (p : UsedCM → list string) {A : Type}
    (f : A → UsedCM) (xs : list A) (x : string) :
  (∀ u v, p (app_used u v) = p u ++ p v) → p noUsedCM = [] →
  x ∈ p (concat_used f xs) ↔ ∃ a, a ∈ xs ∧ x ∈ p (f a).
Proof.
  intros Happ Hnil. induction xs as [|a xs IH]; simpl.
  - rewrite Hnil, elem_of_nil. split; [done|]. intros (a & Ha & _).
    by apply elem_of_nil in Ha.
  - rewrite Happ, elem_of_app, IH. split.
    + intros [H|(b & Hb & H)]; [exists a | exists b]; split; auto;
        [left | by right].
    + intros (b & [->|Hb]%elem_of_cons & H); [by left | right; eauto].
Qed.

Lemma proj_concat_used_ext (p q : UsedCM → list string) {A : Type}
    (f : A → UsedCM) (xs : list A) :
  (∀ u v, p (app_used u v) = p u ++ p v) →
  (∀ u v, q (app_used u v) = q u ++ q v) →
  p noUsedCM = q noUsedCM →
  (∀ a, p (f a) = q (f a)) →
  p (concat_used f xs) = q (concat_used f xs).
Proof.
  intros Hp Hq Hnil Hf. induction xs as [|a xs IH]; simpl; [done|].
  by rewrite Hp, Hq, Hf, IH.
Qed.

Lemma proj_concat_used_nil (p : UsedCM → list string) {A : Type}
    (f : A → UsedCM) (xs : list A) :
  (∀ u v, p (app_used u v) = p u ++ p v) → p noUsedCM = [] →
  (∀ a, p (f a) = []) → p (concat_used f xs) = [].
Proof.
  intros Hp Hnil Hf. induction xs as [|a xs IH]; simpl; [done|].
  by rewrite Hp, Hf, IH.
Qed.

Lemma or_iff_both (A B C D : Prop) : (A ↔ B) → (C ↔ D) → (A ∨ C ↔ B ∨ D).
Proof. tauto. Qed.

Lemma volumesCM_podRefs (pod : Pod) (x : string) :
  x ∈ volumesCM (podRefs pod) ↔ references ByVolume pod x ∨ mountsVolume pod x.
Proof.
  unfold podRefs.
  change (x ∈ volumesCM (concat_used volumeRefs (PodSpec_Volumes (Pod_Spec pod)))
              ++ volumesCM (concat_used containerRefs
                              (PodSpec_Containers (Pod_Spec pod)))
              ++ volumesCM (concat_used initContainerRefs
                              (PodSpec_InitContainers (Pod_Spec pod)))
          ↔ references ByVolume pod x ∨ mountsVolume pod x).
  rewrite (proj_concat_used_nil volumesCM containerRefs) by done.
  rewrite app_nil_l, elem_of_app.
  rewrite !(elem_of_proj_concat_used volumesCM) by done.
  unfold references, mountsVolume. apply or_iff_both.
  - split.
    + intros (v & Hv & Hx). unfold volumeRefs in Hx; simpl in Hx.
      destruct (Volume_ConfigMap v) as [cm|] eqn:Hcm.
      * apply list_elem_of_singleton in Hx. eauto.
      * by apply elem_of_nil in Hx.
    + intros (v & cm & Hv & Hcm & <-). exists v. split; [done|].
      unfold volumeRefs; simpl. rewrite Hcm. apply list_elem_of_here.
  - split.
    + intros (ic & Hic & Hx). unfold initContainerRefs in Hx; simpl in Hx.
      apply list_elem_of_fmap in Hx as (vm & -> & Hvm).
      apply list_elem_of_filter in Hvm as [Hm Hvm]. eauto 6.
    + intros (ic & vm & Hic & Hvm & Hm & <-). exists ic. split; [done|].
      unfold initContainerRefs; simpl.
      apply list_elem_of_fmap_2, list_elem_of_filter. done.
Qed.

Lemma volumesCM_exceptions (namespace x : string) :
  x ∈ volumesCM (concat_used (exceptionRefs namespace) exceptionconfigmaps)
  ↔ exemptedName namespace x.
Proof.
  rewrite (elem_of_proj_concat_used volumesCM) by done.
  unfold exemptedName. apply exist_proper; intros r.
  unfold exceptionRefs; simpl. destruct (decide (exempted namespace r)) as [He|He].
  - rewrite list_elem_of_singleton.
    split; [by intros [Hr ->] | by intros (Hr & _ & <-)].
  - rewrite elem_of_nil.
    split; [by intros [_ []] | by intros (_ & Hex & _)].
Qed.

(** X1: the volume slice that the extractor returns holds a name exactly when
    a volume of a pod names it as its config map, or an init container of a
    pod mounts a volume of that name with a name and a mount path that are
    not empty, or the name is exempted in the namespace; volume mounts of the
    other containers and mounts without a path add nothing. *)
Theorem volume_slice_membership (clientset : Clientset) (namespace : string)
    (pods : list Pod) (u : UsedCM) (x : string) :
  Pods_List clientset namespace = inr pods →
  retrieveUsedCM clientset namespace = inr u →
  x ∈ volumesCM u
  ↔ (∃ pod, pod ∈ pods ∧ (references ByVolume pod x ∨ mountsVolume pod x))
    ∨ exemptedName namespace x.
Proof.
  intros Hpods. rewrite retrieveUsedCM_eq, Hpods. intros [= <-].
  unfold usedOf.
  change (x ∈ volumesCM (concat_used podRefs pods)
              ++ volumesCM (concat_used (exceptionRefs namespace)
                              exceptionconfigmaps)
          ↔ (∃ pod, pod ∈ pods
                    ∧ (references ByVolume pod x ∨ mountsVolume pod x))
            ∨ exemptedName namespace x).
  rewrite elem_of_app, volumesCM_exceptions.
  rewrite (elem_of_proj_concat_used volumesCM) by done.
  apply or_iff_compat_r. apply exist_proper; intros pod.
  by rewrite volumesCM_podRefs.
Qed.

Ltac proj_app p :=
  repeat match goal with
         | |- context [p (app_used ?a ?b)] =>
             change (p (app_used a b)) with (p a ++ p b)
         end.

Lemma volumesProjectedCM_podRefs (pod : Pod) (x : string) :
  x ∈ volumesProjectedCM (podRefs pod) ↔ references ByProjectedVolume pod x.
Proof.
  unfold podRefs. proj_app volumesProjectedCM.
  rewrite (proj_concat_used_nil volumesProjectedCM containerRefs) by done.
  rewrite (proj_concat_used_nil volumesProjectedCM initContainerRefs) by done.
  rewrite !app_nil_r, (elem_of_proj_concat_used volumesProjectedCM) by done.
  simpl. split.
  - intros (v & Hv & Hx). unfold volumeRefs in Hx; simpl in Hx.
    destruct (Volume_Projected v) as [p|] eqn:Hp.
    + apply list_elem_of_omap in Hx as (src & Hsrc & Hx). eauto 8.
    + by apply elem_of_nil in Hx.
  - intros (v & p & src & Hv & Hp & Hsrc & Hx). exists v. split; [done|].
    unfold volumeRefs; simpl. rewrite Hp. apply list_elem_of_omap. eauto.
Qed.

Lemma envCM_podRefs (pod : Pod) (x : string) :
  x ∈ envCM (podRefs pod) ↔ references ByEnv pod x.
Proof.
  unfold podRefs. proj_app envCM.
  rewrite (proj_concat_used_nil envCM volumeRefs) by done.
  rewrite (proj_concat_used_nil envCM initContainerRefs) by done.
  rewrite app_nil_l, app_nil_r, (elem_of_proj_concat_used envCM) by done.
  simpl. split.
  - intros (c & Hc & Hx). unfold containerRefs in Hx; simpl in Hx.
    apply list_elem_of_omap in Hx as (e & He & Hx). eauto 6.
  - intros (c & e & Hc & He & Hx). exists c. split; [done|].
    unfold containerRefs; simpl. apply list_elem_of_omap. eauto.
Qed.

Lemma envFromCM_podRefs (pod : Pod) (x : string) :
  x ∈ envFromCM (podRefs pod) ↔ references ByEnvFrom pod x.
Proof.
  unfold podRefs. proj_app envFromCM.
  rewrite (proj_concat_used_nil envFromCM volumeRefs) by done.
  rewrite (proj_concat_used_nil envFromCM initContainerRefs) by done.
  rewrite app_nil_l, app_nil_r, (elem_of_proj_concat_used envFromCM) by done.
  simpl. split.
  - intros (c & Hc & Hx). unfold containerRefs in Hx; simpl in Hx.
    apply list_elem_of_omap in Hx as (e & He & Hx). eauto 6.
  - intros (c & e & Hc & He & Hx). exists c. split; [done|].
    unfold containerRefs; simpl. apply list_elem_of_omap. eauto.
Qed.

Lemma envFromContainerCM_podRefs (pod : Pod) (x : string) :
  x ∈ envFromContainerCM (podRefs pod) ↔ references ByEnvFrom pod x.
Proof.
  unfold podRefs. proj_app envFromContainerCM.
  rewrite (proj_concat_used_nil envFromContainerCM volumeRefs) by done.
  rewrite (proj_concat_used_nil envFromContainerCM initContainerRefs) by done.
  rewrite app_nil_l, app_nil_r,
    (elem_of_proj_concat_used envFromContainerCM) by done.
  simpl. split.
  - intros (c & Hc & Hx). unfold containerRefs in Hx; simpl in Hx.
    apply list_elem_of_omap in Hx as (e & He & Hx). eauto 6.
  - intros (c & e & Hc & He & Hx). exists c. split; [done|].
    unfold containerRefs; simpl. apply list_elem_of_omap. eauto.
Qed.

Lemma envFromInitContainerCM_podRefs (pod : Pod) (x : string) :
  x ∈ envFromInitContainerCM (podRefs pod) ↔ references ByInitEnv pod x.
Proof.
  unfold podRefs. proj_app envFromInitContainerCM.
  rewrite (proj_concat_used_nil envFromInitContainerCM volumeRefs) by done.
  rewrite (proj_concat_used_nil envFromInitContainerCM containerRefs) by done.
  rewrite !app_nil_l,
    (elem_of_proj_concat_used envFromInitContainerCM) by done.
  simpl. split.
  - intros (c & Hc & Hx). unfold initContainerRefs in Hx; simpl in Hx.
    apply list_elem_of_omap in Hx as (e & He & Hx). eauto 6.
  - intros (c & e & Hc & He & Hx). exists c. split; [done|].
    unfold initContainerRefs; simpl. apply list_elem_of_omap. eauto.
Qed.

Lemma slice_of_pods (p : UsedCM → list string) (how : Attachment)
    (namespace : string) (pods : list Pod) (x : string) :
  (∀ u v, p (app_used u v) = p u ++ p v) → p noUsedCM = [] →
  (∀ resource, p (exceptionRefs namespace resource) = []) →
  (∀ pod, x ∈ p (podRefs pod) ↔ references how pod x) →
  x ∈ p (usedOf namespace pods) ↔ ∃ pod, pod ∈ pods ∧ references how pod x.
Proof.
  intros Happ Hnil Hex Hpod. unfold usedOf.
  rewrite Happ, (proj_concat_used_nil p (exceptionRefs namespace)) by done.
  rewrite app_nil_r, (elem_of_proj_concat_used p) by done.
  apply exist_proper; intros pod. by rewrite Hpod.
Qed.

(** X2: each of the other five slices that the extractor returns holds a name
    exactly when a pod of the listing names it in the way of that slice: a
    source of a projected volume, an environment variable of a container, an
    [envFrom] entry of a container (for two of the slices), an environment
    variable of an init container. The namespace has no part in them. *)
Theorem reference_slices_membership (clientset : Clientset) (namespace : string)
    (pods : list Pod) (u : UsedCM) (x : string) :
  Pods_List clientset namespace = inr pods →
  retrieveUsedCM clientset namespace = inr u →
  (x ∈ volumesProjectedCM u
   ↔ ∃ pod, pod ∈ pods ∧ references ByProjectedVolume pod x)
  ∧ (x ∈ envCM u ↔ ∃ pod, pod ∈ pods ∧ references ByEnv pod x)
  ∧ (x ∈ envFromCM u ↔ ∃ pod, pod ∈ pods ∧ references ByEnvFrom pod x)
  ∧ (x ∈ envFromContainerCM u
     ↔ ∃ pod, pod ∈ pods ∧ references ByEnvFrom pod x)
  ∧ (x ∈ envFromInitContainerCM u
     ↔ ∃ pod, pod ∈ pods ∧ references ByInitEnv pod x).
Proof.
  intros Hpods. rewrite retrieveUsedCM_eq, Hpods. intros [= <-]. split_and!.
  - apply slice_of_pods; [done..|]. intros pod. apply volumesProjectedCM_podRefs.
  - apply slice_of_pods; [done..|]. intros pod. apply envCM_podRefs.
  - apply slice_of_pods; [done..|]. intros pod. apply envFromCM_podRefs.
  - apply slice_of_pods; [done..|]. intros pod. apply envFromContainerCM_podRefs.
  - apply slice_of_pods; [done..|]. intros pod.
    apply envFromInitContainerCM_podRefs.
Qed.

(** X3: the two [envFrom] slices that the extractor returns are the same
    list, element by element: the second walk over [EnvFrom] repeats the
    first. *)
Theorem envFrom_slices_equal (clientset : Clientset) (namespace : string)
    (u : UsedCM) :
  retrieveUsedCM clientset namespace = inr u →
  envFromContainerCM u = envFromCM u.
Proof.
  rewrite retrieveUsedCM_eq. destruct (Pods_List _ _) as [err|pods]; [done|].
  intros [= <-]. unfold usedOf.
  proj_app envFromContainerCM. proj_app envFromCM. f_equal.
  apply proj_concat_used_ext; [done..|]. intros pod. unfold podRefs.
  proj_app envFromContainerCM. proj_app envFromCM.
  rewrite (proj_concat_used_nil envFromContainerCM volumeRefs) by done.
  rewrite (proj_concat_used_nil envFromCM volumeRefs) by done.
  rewrite (proj_concat_used_nil envFromContainerCM initContainerRefs) by done.
  rewrite (proj_concat_used_nil envFromCM initContainerRefs) by done.
  f_equal. f_equal. by apply proj_concat_used_ext.
Qed.

(** X4: for a namespace without pods the extractor returns the names exempted
    in the namespace as the volume slice, [aws-auth] before
    [kube-root-ca.crt] in [kube-system] and [kube-root-ca.crt] alone
    elsewhere, and five empty slices. *)
Theorem no_pods_only_exemptions (clientset : Clientset) (namespace : string) :
  Pods_List clientset namespace = inr [] →
  retrieveUsedCM clientset namespace
  = inr {| volumesCM :=
             if decide (namespace = "kube-system")
             then ["aws-auth"; "kube-root-ca.crt"]
             else ["kube-root-ca.crt"];
           volumesProjectedCM := []; envCM := []; envFromCM := [];
           envFromContainerCM := []; envFromInitContainerCM := [] |}.
Proof.
  intros Hpods. unfold retrieveUsedCM. rewrite Hpods. f_equal.
  unfold exceptionconfigmaps. rewrite !forRange_cons.
  change (forRange [] _ ?s) with s.
  unfold addException at 2; simpl.
  destruct (decide (namespace = "kube-system")) as [->|Hne].
  - reflexivity.
  - rewrite (bool_decide_eq_false_2 ("kube-system" = namespace)) by done.
    simpl. unfold addException; simpl.
    by rewrite orb_true_r.
Qed.

(** ** More about the lister and the difference *)

Section kor_more.
Context {FilterOptions ExcludeLabelsT : Type}.
Variable ExcludeLabels : FilterOptions → ExcludeLabelsT.
Variable HasExcludedLabel :
  gmap string string → ExcludeLabelsT → bool * option error.
Variable HasIncludedAge : Time → FilterOptions → bool * option error.

Local Abbreviation kept := (kept ExcludeLabels HasExcludedLabel HasIncludedAge).
Local Abbreviation candidates :=
  (candidates ExcludeLabels HasExcludedLabel HasIncludedAge).
Local Abbreviation retrieveConfigMapNames :=
  (retrieveConfigMapNames ExcludeLabels HasExcludedLabel HasIncludedAge).
Local Abbreviation processNamespaceCM :=
  (processNamespaceCM ExcludeLabels HasExcludedLabel HasIncludedAge).

Lemma retrieveConfigMapNames_eq (clientset : Clientset) (namespace : string)
    (filterOpts : FilterOptions) :
  retrieveConfigMapNames clientset namespace filterOpts
  = match ConfigMaps_List clientset namespace with
    | inl err => inl err
    | inr configmaps => inr (candidates filterOpts configmaps)
    end.
Proof.
  unfold retrieveConfigMapNames.
  destruct (ConfigMaps_List _ _) as [err|cms]; [done|].
  by rewrite keepConfigMap_loop.
Qed.

Lemma candidate_kept (filterOpts : FilterOptions) (configmaps : list ConfigMap)
    (configmap : ConfigMap) :
  NoDup (ConfigMap_Name <$> configmaps) → configmap ∈ configmaps →
  ConfigMap_Name configmap ∈ candidates filterOpts configmaps →
  kept filterOpts configmap = true.
Proof.
  intros Hnd Hin Hcand. unfold candidates in Hcand.
  apply list_elem_of_fmap in Hcand as (other & Hname & Hother).
  apply list_elem_of_filter in Hother as [Hkept Hother].
  by rewrite (same_name_same_configmap configmaps configmap other).
Qed.

(** X5: the names that the lister returns are names of the listing, in the
    order of the listing and no more often than there: it never adds or
    reorders a name, returns at most as many names as there are config maps,
    and returns distinct names when the listing has distinct names. *)
Theorem lister_keeps_order (clientset : Clientset) (namespace : string)
    (filterOpts : FilterOptions) (configmaps : list ConfigMap)
    (names : list string) :
  ConfigMaps_List clientset namespace = inr configmaps →
  retrieveConfigMapNames clientset namespace filterOpts = inr names →
  names `sublist_of` (ConfigMap_Name <$> configmaps)
  ∧ (length names ≤ length configmaps)%nat
  ∧ (NoDup (ConfigMap_Name <$> configmaps) → NoDup names).
Proof.
  intros Hlist. rewrite retrieveConfigMapNames_eq, Hlist. intros [= <-].
  assert (candidates filterOpts configmaps
            `sublist_of` (ConfigMap_Name <$> configmaps)) as Hsub.
  { unfold candidates. apply fmap_sublist, sublist_filter. }
  split_and!; [done| |].
  - apply sublist_length in Hsub. by rewrite length_fmap in Hsub.
  - intros Hnd. by eapply sublist_NoDup.
Qed.

(** X6: a config map for which [HasExcludedLabel] answers true is not among
    the names that the lister returns (the names of a listing being
    distinct), whatever its age and its other labels. *)
Theorem excluded_label_not_listed (clientset : Clientset) (namespace : string)
    (filterOpts : FilterOptions) (configmaps : list ConfigMap)
    (configmap : ConfigMap) (names : list string) :
  ConfigMaps_List clientset namespace = inr configmaps →
  NoDup (ConfigMap_Name <$> configmaps) →
  configmap ∈ configmaps →
  (HasExcludedLabel (ConfigMap_Labels configmap) (ExcludeLabels filterOpts)).1
    = true →
  retrieveConfigMapNames clientset namespace filterOpts = inr names →
  ConfigMap_Name configmap ∉ names.
Proof.
  intros Hlist Hnd Hin Hex. rewrite retrieveConfigMapNames_eq, Hlist.
  intros [= <-] Hcand. apply candidate_kept in Hcand; [|done..].
  unfold kept in Hcand. by rewrite Hex in Hcand.
Qed.

(** X7: a config map for which [HasIncludedAge] answers false is not among
    the names that the lister returns (the names of a listing being
    distinct). *)
Theorem outside_age_not_listed (clientset : Clientset) (namespace : string)
    (filterOpts : FilterOptions) (configmaps : list ConfigMap)
    (configmap : ConfigMap) (names : list string) :
  ConfigMaps_List clientset namespace = inr configmaps →
  NoDup (ConfigMap_Name <$> configmaps) →
  configmap ∈ configmaps →
  (HasIncludedAge (ConfigMap_CreationTimestamp configmap) filterOpts).1 = false →
  retrieveConfigMapNames clientset namespace filterOpts = inr names →
  ConfigMap_Name configmap ∉ names.
Proof.
  intros Hlist Hnd Hin Hage. rewrite retrieveConfigMapNames_eq, Hlist.
  intros [= <-] Hcand. apply candidate_kept in Hcand; [|done..].
  unfold kept in Hcand. rewrite Hage in Hcand.
  by rewrite andb_false_r in Hcand.
Qed.

(** X8: a config map of the listing that [HasExcludedLabel] does not exclude,
    that [HasIncludedAge] includes and whose label [kor/used] is absent or
    anything but [true] is among the names that the lister returns; the
    errors that the two helpers return beside their answers play no part. *)
Theorem lister_returns_the_rest (clientset : Clientset) (namespace : string)
    (filterOpts : FilterOptions) (configmaps : list ConfigMap)
    (configmap : ConfigMap) (names : list string) :
  ConfigMaps_List clientset namespace = inr configmaps →
  configmap ∈ configmaps →
  (HasExcludedLabel (ConfigMap_Labels configmap) (ExcludeLabels filterOpts)).1
    = false →
  (HasIncludedAge (ConfigMap_CreationTimestamp configmap) filterOpts).1 = true →
  ConfigMap_Labels configmap !! "kor/used" ≠ Some "true" →
  retrieveConfigMapNames clientset namespace filterOpts = inr names →
  ConfigMap_Name configmap ∈ names.
Proof.
  intros Hlist Hin Hex Hage Hlabel. rewrite retrieveConfigMapNames_eq, Hlist.
  intros [= <-]. unfold candidates.
  apply list_elem_of_fmap_2, list_elem_of_filter. split; [|done].
  unfold kept. rewrite Hex, Hage. simpl.
  apply negb_true_iff, bool_decide_eq_false_2. unfold mapIndex.
  destruct (ConfigMap_Labels configmap !! "kor/used") as [v|]; simpl.
  - intros ->. done.
  - done.
Qed.

(** X9: [processNamespaceCM] fails with an error exactly when the listing of
    the pods fails with it, or the listing of the pods succeeds and the
    listing of the config maps fails with it: of two failures the one of the
    pods is returned. *)
Theorem processNamespaceCM_error (clientset : Clientset) (namespace : string)
    (filterOpts : FilterOptions) (err : error) :
  processNamespaceCM clientset namespace filterOpts = inl err
  ↔ Pods_List clientset namespace = inl err
    ∨ ((∃ pods, Pods_List clientset namespace = inr pods)
       ∧ ConfigMaps_List clientset namespace = inl err).
Proof.
  rewrite processNamespaceCM_eq.
  destruct (Pods_List _ _) as [e|pods].
  { split; [intros [= ->]; by left|].
    intros [H|[[? ?] _]]; by simplify_eq. }
  destruct (ConfigMaps_List _ _) as [e|cms].
  { split; [intros [= ->]; right; eauto|].
    intros [H|[_ H]]; by simplify_eq. }
  split; [done|]. intros [H|[_ H]]; by simplify_eq.
Qed.

(** X11: the unused set of a namespace holds a name exactly when the lister
    returns it and none of the six slices of the extractor holds it. *)
Theorem unused_is_listed_and_unreferenced (clientset : Clientset)
    (namespace : string) (filterOpts : FilterOptions) (diff : list string) :
  processNamespaceCM clientset namespace filterOpts = inr diff →
  ∃ u names,
    retrieveUsedCM clientset namespace = inr u
    ∧ retrieveConfigMapNames clientset namespace filterOpts = inr names
    ∧ ∀ x, x ∈ diff ↔ x ∈ names ∧ ¬ referenced u x.
Proof.
  intros Hdiff.
  destruct (elem_of_unused _ _ _ _ _ _ _ Hdiff) as (pods & cms & Hp & Hc & Hiff).
  exists (usedOf namespace pods), (candidates filterOpts cms). split_and!.
  - by rewrite retrieveUsedCM_eq, Hp.
  - by rewrite retrieveConfigMapNames_eq, Hc.
  - done.
Qed.

(** X12: the unused set of a namespace does not depend on the order in which
    the pods are listed: two clusters that list the same config maps and the
    same pods in another order give the same result. *)
Theorem unused_independent_of_pod_order (clientset clientset' : Clientset)
    (namespace : string) (filterOpts : FilterOptions) (pods pods' : list Pod) :
  Pods_List clientset namespace = inr pods →
  Pods_List clientset' namespace = inr pods' →
  pods ≡ₚ pods' →
  ConfigMaps_List clientset namespace = ConfigMaps_List clientset' namespace →
  processNamespaceCM clientset namespace filterOpts
  = processNamespaceCM clientset' namespace filterOpts.
Proof.
  intros Hp Hp' Hperm Hc. rewrite !processNamespaceCM_eq, Hp, Hp', <- Hc.
  destruct (ConfigMaps_List _ _) as [err|cms]; [done|].
  f_equal. apply CalculateResourceDifference_ext. intros x.
  rewrite !elem_of_joined. unfold usedOf.
  rewrite !referenced_app_used, !referenced_concat_used.
  apply or_iff_both; [|done]. apply exist_proper; intros pod.
  by rewrite Hperm.
Qed.
End kor_more.

(** ** More about the loop *)

Lemma string_app_assoc (s t u : string) : (s +:+ t) +:+ u = s +:+ t +:+ u.
Proof.
  induction s as [|a s IH]; [reflexivity|].
  change (String a ((s +:+ t) +:+ u) = String a (s +:+ t +:+ u)).
  by rewrite IH.
Qed.

Lemma string_app_nil_r (s : string) : s +:+ "" = s.
Proof.
  induction s as [|a s IH]; [reflexivity|].
  change (String a (s +:+ "") = String a s). by rewrite IH.
Qed.

Lemma forRange_ext {A S : Type} (body body' : S → A → S) (xs : list A) (s : S) :
  (∀ s x, body s x = body' s x) → forRange xs body s = forRange xs body' s.
Proof.
  intros Hb. revert s. induction xs as [|x xs IH]; intros s; [done|].
  rewrite !forRange_cons, Hb. apply IH.
Qed.

Section kor_run_more.
Context {FilterOptions ExcludeLabelsT IncludeExcludeLists : Type}.
Variable ExcludeLabels : FilterOptions → ExcludeLabelsT.
Variable HasExcludedLabel :
  gmap string string → ExcludeLabelsT → bool * option error.
Variable HasIncludedAge : Time → FilterOptions → bool * option error.
Variable SetNamespaceList : IncludeExcludeLists → Clientset → list string.
Variable DeleteResource :
  list string → Clientset → string → string → bool →
  (list string * option error) * Clientset.
Variable FormatOutput : string → list string → string → string.
Variable unusedResourceFormatter :
  string → string → Opts → string → string * option error.
Variable encodeString : string → string.

Local Abbreviation processNamespaceCM :=
  (processNamespaceCM ExcludeLabels HasExcludedLabel HasIncludedAge).
Local Abbreviation succeeds :=
  (succeeds ExcludeLabels HasExcludedLabel HasIncludedAge).
Local Abbreviation recorded :=
  (recorded ExcludeLabels HasExcludedLabel HasIncludedAge DeleteResource).
Local Abbreviation failureLines :=
  (failureLines ExcludeLabels HasExcludedLabel HasIncludedAge).
Local Abbreviation reportBlocks :=
  (reportBlocks ExcludeLabels HasExcludedLabel HasIncludedAge FormatOutput).
Local Abbreviation finalRun :=
  (finalRun ExcludeLabels HasExcludedLabel HasIncludedAge SetNamespaceList
     DeleteResource FormatOutput).
Local Abbreviation namespaceStep :=
  (namespaceStep ExcludeLabels HasExcludedLabel HasIncludedAge DeleteResource
     FormatOutput).
Local Abbreviation runNamespaces :=
  (runNamespaces ExcludeLabels HasExcludedLabel HasIncludedAge DeleteResource
     FormatOutput).
Local Abbreviation GetUnusedConfigmaps :=
  (GetUnusedConfigmaps ExcludeLabels HasExcludedLabel HasIncludedAge
     SetNamespaceList DeleteResource FormatOutput unusedResourceFormatter
     encodeString).

Variable filterOpts : FilterOptions.
Variable opts : Opts.

(** Without the delete flag: what the loop adds to the two streams, and that
    it leaves the cluster alone. *)
Lemma runNamespaces_reports (namespaces : list string) (r : Run) :
  DeleteFlag opts = false →
  stderr (runNamespaces filterOpts opts namespaces r)
    = stderr r ++ failureLines filterOpts (cluster r) namespaces
  ∧ outputBuffer (runNamespaces filterOpts opts namespaces r)
    = outputBuffer r
      +:+ foldr String.append "" (reportBlocks filterOpts (cluster r) namespaces)
  ∧ cluster (runNamespaces filterOpts opts namespaces r) = cluster r.
Proof.
  intros Hflag. revert r. induction namespaces as [|n nss IH]; intros r.
  - simpl. by rewrite app_nil_r, string_app_nil_r.
  - unfold runNamespaces in *. rewrite forRange_cons.
    destruct (IH (namespaceStep filterOpts opts r n)) as (Herr & Hout & Hcl).
    rewrite Herr, Hout, Hcl. clear IH Herr Hout Hcl.
    unfold failureLines, reportBlocks, namespaceStep. rewrite Hflag.
    cbn [omap list_omap].
    destruct (processNamespaceCM (cluster r) n filterOpts) as [err|diff];
      cbn [stderr outputBuffer cluster foldr].
    + by rewrite <- app_assoc.
    + by rewrite app_nil_r, !string_app_assoc.
Qed.

(** X13: without the delete flag, what [GetUnusedConfigmaps] writes to the
    error stream is one line [Failed to process namespace <ns>: <err>] for
    every turn of the namespace list that fails, in the order of the list,
    and nothing else. *)
Theorem error_stream_lists_failures (includeExcludeLists : IncludeExcludeLists)
    (clientset : Clientset) (outputFormat : string) :
  DeleteFlag opts = false →
  printedErr (GetUnusedConfigmaps includeExcludeLists filterOpts clientset
                outputFormat opts)
  = failureLines filterOpts clientset
      (SetNamespaceList includeExcludeLists clientset).
Proof.
  intros Hflag. unfold GetUnusedConfigmaps.
  destruct (runNamespaces_reports
              (SetNamespaceList includeExcludeLists clientset)
              (startRun clientset) Hflag) as (Herr & _ & _).
  destruct (MarshalIndent _ _ _ _) as [err|json]; simpl.
  - by rewrite Herr.
  - destruct (unusedResourceFormatter _ _ _ _); simpl. by rewrite Herr.
Qed.

(** X14: without the delete flag, the text buffer after the loop is the
    block [FormatOutput ns diff "Configmaps"] and a line feed for every turn
    of the namespace list that succeeds, in the order of the list; a
    namespace that is listed twice has two blocks. *)
Theorem text_buffer_blocks (includeExcludeLists : IncludeExcludeLists)
    (clientset : Clientset) :
  DeleteFlag opts = false →
  outputBuffer (finalRun includeExcludeLists filterOpts clientset opts)
  = foldr String.append ""
      (reportBlocks filterOpts clientset
         (SetNamespaceList includeExcludeLists clientset)).
Proof.
  intros Hflag. unfold finalRun.
  destruct (runNamespaces_reports
              (SetNamespaceList includeExcludeLists clientset)
              (startRun clientset) Hflag) as (_ & Hout & _).
  by rewrite Hout.
Qed.

(** X16: an entry of the response is neither removed nor changed by the
    turns of other namespaces and by turns of its own namespace that fail: as
    long as no later turn of the namespace succeeds, the entry stays what it
    was. *)
Theorem entry_survives_failures (namespaces : list string) (r : Run)
    (namespace : string) :
  (∀ pre post,
     namespaces = pre ++ namespace :: post →
     ¬ succeeds filterOpts
         (cluster (runNamespaces filterOpts opts pre r)) namespace) →
  response (runNamespaces filterOpts opts namespaces r) !! namespace
  = response r !! namespace.
Proof.
  induction namespaces as [|n nss IH] using rev_ind; intros Hfail; [done|].
  rewrite runNamespaces_snoc, namespaceStep_response.
  assert (response (runNamespaces filterOpts opts nss r) !! namespace
          = response r !! namespace) as Hold.
  { apply IH. intros pre post ->. apply (Hfail pre (post ++ [n])).
    by rewrite <- app_assoc. }
  destruct (recorded filterOpts opts
              (cluster (runNamespaces filterOpts opts nss r)) n) as [l|] eqn:Hrec;
    [|done].
  destruct (decide (n = namespace)) as [->|Hne].
  - exfalso. apply (Hfail nss []); [done|].
    apply recorded_is_Some with (DeleteResource := DeleteResource) (opts := opts).
    rewrite Hrec. eauto.
  - by rewrite lookup_insert_ne.
Qed.

Lemma runNamespaces_all_fail (namespaces : list string) (r : Run) :
  (∀ namespace, namespace ∈ namespaces →
                ¬ succeeds filterOpts (cluster r) namespace) →
  runNamespaces filterOpts opts namespaces r
  = {| outputBuffer := outputBuffer r;
       response := response r;
       stderr := stderr r ++ failureLines filterOpts (cluster r) namespaces;
       cluster := cluster r |}
  ∧ length (failureLines filterOpts (cluster r) namespaces) = length namespaces.
Proof.
  revert r. induction namespaces as [|n nss IH]; intros r Hfail.
  - split; [|done]. simpl. rewrite app_nil_r. by destruct r.
  - assert (∃ err, processNamespaceCM (cluster r) n filterOpts = inl err)
      as [err Herr].
    { destruct (processNamespaceCM (cluster r) n filterOpts) as [err|diff] eqn:H;
        [eauto|].
      exfalso. apply (Hfail n); [apply list_elem_of_here|]. by exists diff. }
    unfold runNamespaces in *. rewrite forRange_cons.
    rewrite (namespaceStep_failed _ _ _ _ _ _ _ _ _ err Herr).
    destruct (IH {| outputBuffer := outputBuffer r; response := response r;
                    stderr := stderr r ++
                      ["Failed to process namespace " +:+ n +:+ ": " +:+ err
                         +:+ LF];
                    cluster := cluster r |}) as [Hrun Hlen].
    { intros ns Hns. apply Hfail. by apply list_elem_of_further. }
    cbn [stderr outputBuffer response cluster] in Hrun, Hlen.
    rewrite Hrun. unfold failureLines in *. cbn [omap list_omap].
    rewrite Herr. cbn [length].
    split; [|by rewrite Hlen]. by rewrite <- app_assoc.
Qed.

(** X17: when every namespace of the list fails on the cluster, and also when
    the list is empty, the formatter receives the empty text and the document
    [{}], the cluster is left as it was, and the error stream has one line
    for every namespace of the list. *)
Theorem all_namespaces_fail (includeExcludeLists : IncludeExcludeLists)
    (clientset : Clientset) (outputFormat : string) :
  (∀ namespace,
     namespace ∈ SetNamespaceList includeExcludeLists clientset →
     ¬ succeeds filterOpts clientset namespace) →
  returned (GetUnusedConfigmaps includeExcludeLists filterOpts clientset
              outputFormat opts)
    = ((unusedResourceFormatter outputFormat "" opts "{}").1, None)
  ∧ clusterAfter (GetUnusedConfigmaps includeExcludeLists filterOpts clientset
                    outputFormat opts) = clientset
  ∧ length (printedErr (GetUnusedConfigmaps includeExcludeLists filterOpts
                          clientset outputFormat opts))
    = length (SetNamespaceList includeExcludeLists clientset).
Proof.
  intros Hfail. unfold GetUnusedConfigmaps.
  destruct (runNamespaces_all_fail
              (SetNamespaceList includeExcludeLists clientset)
              (startRun clientset) Hfail) as [Hrun Hlen].
  rewrite Hrun. cbn [response outputBuffer stderr cluster startRun].
  change (MarshalIndent encodeString "" "  " ∅) with (@inr error string "{}").
  cbv beta iota.
  destruct (unusedResourceFormatter outputFormat "" opts "{}") as [s e].
  cbn [returned clusterAfter printedErr fst app]. split_and!; [done..|].
  exact Hlen.
Qed.

(** X18: [GetUnusedConfigmaps] returns a nil error on every input: a listing
    that fails, a deletion that fails and a formatter that fails are printed,
    and the response always serializes. *)
Theorem GetUnusedConfigmaps_returns_no_error
    (includeExcludeLists : IncludeExcludeLists) (clientset : Clientset)
    (outputFormat : string) :
  (returned (GetUnusedConfigmaps includeExcludeLists filterOpts clientset
               outputFormat opts)).2 = None.
Proof.
  rewrite (GetUnusedConfigmaps_returned ExcludeLabels HasExcludedLabel
             HasIncludedAge SetNamespaceList DeleteResource FormatOutput
             unusedResourceFormatter encodeString filterOpts opts).
  reflexivity.
Qed.

(** X19: with the delete flag set, a namespace whose deletion returns an
    error is recorded all the same: the text block and the entry of the
    response hold what the executor returned as not deleted (not the unused
    set), the error stream gets one line that names that list, and the loop
    goes on with the cluster as the executor left it. *)
Theorem deletion_error_is_logged (r : Run) (namespace : string)
    (diff notDeleted : list string) (err : error) (after : Clientset) :
  DeleteFlag opts = true →
  processNamespaceCM (cluster r) namespace filterOpts = inr diff →
  DeleteResource diff (cluster r) namespace "ConfigMap" (NoInteractive opts)
    = (notDeleted, Some err, after) →
  namespaceStep filterOpts opts r namespace
  = {| outputBuffer :=
         outputBuffer r +:+ FormatOutput namespace notDeleted "Configmaps" +:+ LF;
       response := <[namespace := {["ConfigMap" := notDeleted]}]> (response r);
       stderr := stderr r ++
         ["Failed to delete ConfigMap " +:+ fmtStrings notDeleted
            +:+ " in namespace " +:+ namespace +:+ ": " +:+ err +:+ LF];
       cluster := after |}.
Proof.
  intros Hflag Hdiff Hdel. unfold namespaceStep.
  rewrite Hdiff, Hflag, Hdel. by rewrite insert_empty.
Qed.
End kor_run_more.

Section kor_executor.
Context {FilterOptions ExcludeLabelsT IncludeExcludeLists : Type}.
Variable ExcludeLabels : FilterOptions → ExcludeLabelsT.
Variable HasExcludedLabel :
  gmap string string → ExcludeLabelsT → bool * option error.
Variable HasIncludedAge : Time → FilterOptions → bool * option error.
Variable SetNamespaceList : IncludeExcludeLists → Clientset → list string.
Variable FormatOutput : string → list string → string → string.
Variable unusedResourceFormatter :
  string → string → Opts → string → string * option error.
Variable encodeString : string → string.

(** X15: without the delete flag the deletion executor has no part in a
    call: with any two executors [GetUnusedConfigmaps] returns and prints the
    same, and the cluster after the call is the cluster before it. *)
Theorem executor_unused_without_flag
    (DeleteResource DeleteResource' :
       list string → Clientset → string → string → bool →
       (list string * option error) * Clientset)
    (includeExcludeLists : IncludeExcludeLists) (filterOpts : FilterOptions)
    (clientset : Clientset) (outputFormat : string) (opts : Opts) :
  DeleteFlag opts = false →
  GetUnusedConfigmaps ExcludeLabels HasExcludedLabel HasIncludedAge
    SetNamespaceList DeleteResource FormatOutput unusedResourceFormatter
    encodeString includeExcludeLists filterOpts clientset outputFormat opts
  = GetUnusedConfigmaps ExcludeLabels HasExcludedLabel HasIncludedAge
      SetNamespaceList DeleteResource' FormatOutput unusedResourceFormatter
      encodeString includeExcludeLists filterOpts clientset outputFormat opts
  ∧ clusterAfter
      (GetUnusedConfigmaps ExcludeLabels HasExcludedLabel HasIncludedAge
         SetNamespaceList DeleteResource FormatOutput unusedResourceFormatter
         encodeString includeExcludeLists filterOpts clientset outputFormat opts)
    = clientset.
Proof.
  intros Hflag. split.
  - unfold GetUnusedConfigmaps, runNamespaces.
    rewrite (forRange_ext _
               (namespaceStep ExcludeLabels HasExcludedLabel HasIncludedAge
                  DeleteResource' FormatOutput filterOpts opts)); [done|].
    intros r ns. unfold namespaceStep. by rewrite Hflag.
  - unfold GetUnusedConfigmaps.
    pose proof (cluster_runNamespaces ExcludeLabels HasExcludedLabel
                  HasIncludedAge DeleteResource FormatOutput filterOpts opts
                  (SetNamespaceList includeExcludeLists clientset)
                  (startRun clientset) Hflag) as Hcl.
    destruct (MarshalIndent _ _ _ _) as [err|json]; simpl; [done|].
    by destruct (unusedResourceFormatter _ _ _ _).
Qed.
End kor_executor.

(** ** The further theorems on the concrete clusters *)

Local Abbreviation listScenario :=
  (retrieveConfigMapNames Scenario.excludeLabels Scenario.skipLabelled
     Scenario.olderThan100).

Local Abbreviation getScenario :=
  (GetUnusedConfigmaps Scenario.excludeLabels Scenario.noExcludedLabel
     Scenario.anyAge).

Lemma volume_slice_membership_witness :
  "scratch" ∈ volumesCM Scenario.busyUsed
  ↔ (∃ pod, pod ∈ [Scenario.busyPod; Scenario.busyPod]
            ∧ (references ByVolume pod "scratch" ∨ mountsVolume pod "scratch"))
    ∨ exemptedName "ns1" "scratch".
Proof.
  apply (volume_slice_membership Scenario.busyCluster "ns1").
  - reflexivity.
  - vm_compute; reflexivity.
Defined.

Lemma reference_slices_membership_witness :
  ("cm-env" ∈ volumesProjectedCM Scenario.busyUsed
   ↔ ∃ pod, pod ∈ [Scenario.busyPod; Scenario.busyPod]
            ∧ references ByProjectedVolume pod "cm-env")
  ∧ ("cm-env" ∈ envCM Scenario.busyUsed
     ↔ ∃ pod, pod ∈ [Scenario.busyPod; Scenario.busyPod]
              ∧ references ByEnv pod "cm-env")
  ∧ ("cm-env" ∈ envFromCM Scenario.busyUsed
     ↔ ∃ pod, pod ∈ [Scenario.busyPod; Scenario.busyPod]
              ∧ references ByEnvFrom pod "cm-env")
  ∧ ("cm-env" ∈ envFromContainerCM Scenario.busyUsed
     ↔ ∃ pod, pod ∈ [Scenario.busyPod; Scenario.busyPod]
              ∧ references ByEnvFrom pod "cm-env")
  ∧ ("cm-env" ∈ envFromInitContainerCM Scenario.busyUsed
     ↔ ∃ pod, pod ∈ [Scenario.busyPod; Scenario.busyPod]
              ∧ references ByInitEnv pod "cm-env").
Proof.
  apply (reference_slices_membership Scenario.busyCluster "ns1").
  - reflexivity.
  - vm_compute; reflexivity.
Defined.

Lemma envFrom_slices_equal_witness :
  retrieveUsedCM Scenario.busyCluster "ns1" = inr Scenario.busyUsed
  ∧ envFromContainerCM Scenario.busyUsed = envFromCM Scenario.busyUsed.
Proof.
  split; [vm_compute; reflexivity|].
  apply (envFrom_slices_equal Scenario.busyCluster "ns1").
  vm_compute; reflexivity.
Defined.

Lemma no_pods_only_exemptions_witness :
  retrieveUsedCM Scenario.systemCluster "kube-system"
  = inr {| volumesCM :=
             if decide ("kube-system" = "kube-system")
             then ["aws-auth"; "kube-root-ca.crt"]
             else ["kube-root-ca.crt"];
           volumesProjectedCM := []; envCM := []; envFromCM := [];
           envFromContainerCM := []; envFromInitContainerCM := [] |}.
Proof.
  apply (no_pods_only_exemptions Scenario.systemCluster "kube-system").
  reflexivity.
Defined.

Lemma lister_keeps_order_witness :
  listScenario Scenario.filteredCluster "ns1" tt = inr ["old"; "not-marked"]
  ∧ ["old"; "not-marked"]
      `sublist_of` ["old"; "skipped"; "young"; "not-marked"]
  ∧ (2 ≤ 4)%nat
  ∧ (NoDup ["old"; "skipped"; "young"; "not-marked"]
     → NoDup ["old"; "not-marked"]).
Proof.
  split; [vm_compute; reflexivity|].
  apply (lister_keeps_order Scenario.excludeLabels Scenario.skipLabelled
           Scenario.olderThan100 Scenario.filteredCluster "ns1" tt
           Scenario.filteredListing
           ["old"; "not-marked"]).
  - reflexivity.
  - vm_compute; reflexivity.
Defined.

Lemma excluded_label_not_listed_witness :
  listScenario Scenario.filteredCluster "ns1" tt = inr ["old"; "not-marked"]
  ∧ "skipped" ∉ ["old"; "not-marked"].
Proof.
  split; [vm_compute; reflexivity|].
  apply (excluded_label_not_listed Scenario.excludeLabels Scenario.skipLabelled
           Scenario.olderThan100 Scenario.filteredCluster "ns1" tt
           Scenario.filteredListing
           Scenario.cmSkipped).
  - reflexivity.
  - apply (bool_decide_unpack _). vm_compute. exact I.
  - apply list_elem_of_further, list_elem_of_here.
  - vm_compute; reflexivity.
  - vm_compute; reflexivity.
Defined.

Lemma outside_age_not_listed_witness :
  listScenario Scenario.filteredCluster "ns1" tt = inr ["old"; "not-marked"]
  ∧ "young" ∉ ["old"; "not-marked"].
Proof.
  split; [vm_compute; reflexivity|].
  apply (outside_age_not_listed Scenario.excludeLabels Scenario.skipLabelled
           Scenario.olderThan100 Scenario.filteredCluster "ns1" tt
           Scenario.filteredListing
           Scenario.cmYoung).
  - reflexivity.
  - apply (bool_decide_unpack _). vm_compute. exact I.
  - do 2 apply list_elem_of_further. apply list_elem_of_here.
  - vm_compute; reflexivity.
  - vm_compute; reflexivity.
Defined.

Lemma lister_returns_the_rest_witness :
  listScenario Scenario.filteredCluster "ns1" tt = inr ["old"; "not-marked"]
  ∧ "not-marked" ∈ ["old"; "not-marked"].
Proof.
  split; [vm_compute; reflexivity|].
  apply (lister_returns_the_rest Scenario.excludeLabels Scenario.skipLabelled
           Scenario.olderThan100 Scenario.filteredCluster "ns1" tt
           Scenario.filteredListing
           Scenario.cmNotMarked).
  - reflexivity.
  - do 3 apply list_elem_of_further. apply list_elem_of_here.
  - vm_compute; reflexivity.
  - vm_compute; reflexivity.
  - apply (bool_decide_unpack _). vm_compute. exact I.
  - vm_compute; reflexivity.
Defined.

Lemma referenced_not_unused_witness :
  processScenario Scenario.busyCluster "ns1" tt = inr ["main-mount"; "no-path"]
  ∧ "cm-envfrom" ∉ ["main-mount"; "no-path"].
Proof.
  split; [vm_compute; reflexivity|].
  apply (referenced_not_unused Scenario.excludeLabels Scenario.noExcludedLabel
           Scenario.anyAge ByEnvFrom Scenario.busyCluster "ns1" tt
           [Scenario.busyPod; Scenario.busyPod] Scenario.busyPod "cm-envfrom").
  - discriminate.
  - reflexivity.
  - apply list_elem_of_here.
  - simpl. eexists _, _. split_and!; [apply list_elem_of_here..|reflexivity].
  - vm_compute; reflexivity.
Defined.

Lemma unused_is_listed_and_unreferenced_witness :
  ∃ u names,
    retrieveUsedCM Scenario.busyCluster "ns1" = inr u
    ∧ retrieveConfigMapNames Scenario.excludeLabels Scenario.noExcludedLabel
        Scenario.anyAge Scenario.busyCluster "ns1" tt = inr names
    ∧ ∀ x, x ∈ ["main-mount"; "no-path"] ↔ x ∈ names ∧ ¬ referenced u x.
Proof.
  apply (unused_is_listed_and_unreferenced Scenario.excludeLabels
           Scenario.noExcludedLabel Scenario.anyAge Scenario.busyCluster
           "ns1" tt).
  vm_compute; reflexivity.
Defined.

Lemma unused_independent_of_pod_order_witness :
  processScenario Scenario.twoPodsCluster "ns1" tt
  = processScenario Scenario.swappedPodsCluster "ns1" tt.
Proof.
  apply (unused_independent_of_pod_order Scenario.excludeLabels
           Scenario.noExcludedLabel Scenario.anyAge Scenario.twoPodsCluster
           Scenario.swappedPodsCluster "ns1" tt
           [Scenario.appPod; Scenario.busyPod]
           [Scenario.busyPod; Scenario.appPod]).
  - reflexivity.
  - reflexivity.
  - apply Permutation_swap.
  - reflexivity.
Defined.

Lemma error_stream_lists_failures_witness :
  printedErr
    (getScenario
       (Scenario.namespaceList ["ns1"; "broken"; "half-broken"; "ns2"])
       Scenario.deleteAll Scenario.formatOutput Scenario.formatter
       Scenario.quote tt tt Scenario.flakyCluster "table" Scenario.keepAll)
  = failureLines Scenario.excludeLabels Scenario.noExcludedLabel Scenario.anyAge
      tt Scenario.flakyCluster ["ns1"; "broken"; "half-broken"; "ns2"].
Proof.
  apply (error_stream_lists_failures Scenario.excludeLabels
           Scenario.noExcludedLabel Scenario.anyAge
           (Scenario.namespaceList ["ns1"; "broken"; "half-broken"; "ns2"])
           Scenario.deleteAll Scenario.formatOutput Scenario.formatter
           Scenario.quote tt Scenario.keepAll tt Scenario.flakyCluster "table").
  reflexivity.
Defined.

Lemma text_buffer_blocks_witness :
  outputBuffer
    (finalRun Scenario.excludeLabels Scenario.noExcludedLabel Scenario.anyAge
       (Scenario.namespaceList ["ns1"; "broken"; "ns1"])
       Scenario.deleteAll Scenario.formatOutput tt tt Scenario.flakyCluster
       Scenario.keepAll)
  = foldr String.append ""
      (reportBlocks Scenario.excludeLabels Scenario.noExcludedLabel
         Scenario.anyAge Scenario.formatOutput tt Scenario.flakyCluster
         ["ns1"; "broken"; "ns1"]).
Proof.
  apply (text_buffer_blocks Scenario.excludeLabels Scenario.noExcludedLabel
           Scenario.anyAge (Scenario.namespaceList ["ns1"; "broken"; "ns1"])
           Scenario.deleteAll Scenario.formatOutput tt Scenario.keepAll tt
           Scenario.flakyCluster).
  reflexivity.
Defined.

Lemma executor_unused_without_flag_witness :
  getScenario (Scenario.namespaceList ["ns1"; "broken"]) Scenario.deleteAll
    Scenario.formatOutput Scenario.formatter Scenario.quote tt tt
    Scenario.cluster "json" Scenario.keepAll
  = getScenario (Scenario.namespaceList ["ns1"; "broken"]) Scenario.deleteNone
      Scenario.formatOutput Scenario.formatter Scenario.quote tt tt
      Scenario.cluster "json" Scenario.keepAll
  ∧ clusterAfter
      (getScenario (Scenario.namespaceList ["ns1"; "broken"]) Scenario.deleteAll
         Scenario.formatOutput Scenario.formatter Scenario.quote tt tt
         Scenario.cluster "json" Scenario.keepAll)
    = Scenario.cluster.
Proof.
  apply (executor_unused_without_flag Scenario.excludeLabels
           Scenario.noExcludedLabel Scenario.anyAge
           (Scenario.namespaceList ["ns1"; "broken"]) Scenario.formatOutput
           Scenario.formatter Scenario.quote Scenario.deleteAll
           Scenario.deleteNone tt tt Scenario.cluster "json" Scenario.keepAll).
  reflexivity.
Defined.

(** After the first turn of [ns1] the executor has taken the cluster down: the
    second turn of [ns1] fails and the entry of the first turn stays. *)
Lemma entry_survives_failures_witness :
  response
    (runNamespaces Scenario.excludeLabels Scenario.noExcludedLabel
       Scenario.anyAge Scenario.deleteAndBreak Scenario.formatOutput tt
       Scenario.deleteUnused ["ns1"; "ns2"]
       (runNamespaces Scenario.excludeLabels Scenario.noExcludedLabel
          Scenario.anyAge Scenario.deleteAndBreak Scenario.formatOutput tt
          Scenario.deleteUnused ["ns1"] (startRun Scenario.cluster)))
    !! "ns1"
  = response
      (runNamespaces Scenario.excludeLabels Scenario.noExcludedLabel
         Scenario.anyAge Scenario.deleteAndBreak Scenario.formatOutput tt
         Scenario.deleteUnused ["ns1"] (startRun Scenario.cluster))
      !! "ns1".
Proof.
  apply (entry_survives_failures Scenario.excludeLabels Scenario.noExcludedLabel
           Scenario.anyAge Scenario.deleteAndBreak Scenario.formatOutput tt
           Scenario.deleteUnused ["ns1"; "ns2"]).
  intros pre post Heq [diff Hdiff].
  destruct pre as [|a [|b [|c pre]]]; simplify_eq/=.
Defined.

Lemma all_namespaces_fail_witness :
  returned
    (getScenario (Scenario.namespaceList ["ns1"; "ns2"]) Scenario.deleteAll
       Scenario.formatOutput Scenario.formatter Scenario.quote tt tt
       Scenario.downCluster "json" Scenario.deleteUnused)
  = ((Scenario.formatter "json" "" Scenario.deleteUnused "{}").1, None)
  ∧ clusterAfter
      (getScenario (Scenario.namespaceList ["ns1"; "ns2"]) Scenario.deleteAll
         Scenario.formatOutput Scenario.formatter Scenario.quote tt tt
         Scenario.downCluster "json" Scenario.deleteUnused)
    = Scenario.downCluster
  ∧ length
      (printedErr
         (getScenario (Scenario.namespaceList ["ns1"; "ns2"]) Scenario.deleteAll
            Scenario.formatOutput Scenario.formatter Scenario.quote tt tt
            Scenario.downCluster "json" Scenario.deleteUnused))
    = length (Scenario.namespaceList ["ns1"; "ns2"] tt Scenario.downCluster).
Proof.
  apply (all_namespaces_fail Scenario.excludeLabels Scenario.noExcludedLabel
           Scenario.anyAge (Scenario.namespaceList ["ns1"; "ns2"])
           Scenario.deleteAll Scenario.formatOutput Scenario.formatter
           Scenario.quote tt Scenario.deleteUnused tt Scenario.downCluster "json").
  intros ns _ [diff Hdiff]. vm_compute in Hdiff. discriminate.
Defined.

Lemma deletion_error_is_logged_witness :
  namespaceStep Scenario.excludeLabels Scenario.noExcludedLabel Scenario.anyAge
    Scenario.deleteNone Scenario.formatOutput tt Scenario.deleteUnused
    (startRun Scenario.cluster) "ns1"
  = {| outputBuffer :=
         "" +:+ Scenario.formatOutput "ns1" ["cm-b"] "Configmaps" +:+ LF;
       response := <["ns1" := {["ConfigMap" := ["cm-b"]]}]> ∅;
       stderr := [] ++
         ["Failed to delete ConfigMap " +:+ fmtStrings ["cm-b"]
            +:+ " in namespace " +:+ "ns1" +:+ ": " +:+ "delete: forbidden"
            +:+ LF];
       cluster := Scenario.cluster |}.
Proof.
  apply (deletion_error_is_logged Scenario.excludeLabels Scenario.noExcludedLabel
           Scenario.anyAge Scenario.deleteNone Scenario.formatOutput tt
           Scenario.deleteUnused (startRun Scenario.cluster) "ns1" ["cm-b"]
           ["cm-b"] "delete: forbidden" Scenario.cluster).
  - reflexivity.
  - vm_compute; reflexivity.
  - reflexivity.
Defined.

(** The namespace [ns1] listed twice with an executor that takes the cluster
    down: the second turn fails and the entry of the first turn is kept. *)
Example stale_entry_kept :
  let r := runNamespaces Scenario.excludeLabels Scenario.noExcludedLabel
             Scenario.anyAge Scenario.deleteAndBreak Scenario.formatOutput tt
             Scenario.deleteUnused ["ns1"; "ns1"; "ns2"]
             (startRun Scenario.cluster) in
  response r !! "ns1" = Some {["ConfigMap" := []]}
  ∧ response r !! "ns2" = None
  ∧ length (stderr r) = 2.
Proof. vm_compute. done. Qed.
